(** * MovieApp backend: the search, popular and movie-detail handlers

    A shallow embedding of [Backend/server.js]: the Express handlers
    [GET /api/search], [GET /api/popular] and [GET /api/movie/:id], the
    [makeOMDBRequest] helper they share, the [searchSchema] validation and
    the in-memory [NodeCache] sitting in front of every provider call.

    Conventions.
    - A JavaScript string is a [string]; every character stands for one
      code unit, so [String.length] is the [length] property.
    - The provider's JSON payloads are typed the way the OMDb API and the
      frontend's [Movie] interface have them: an object of primitive fields,
      plus the [Search] array of hit objects.  Hit objects are association
      lists in property order, because the spread [{...movie, Plot: ...}]
      and the serialisation of a response both depend on that order.
    - A number is an integer-valued IEEE double, held as the integer it
      equals: every integer up to 2^53 in magnitude is one, and beyond that
      [to_double] rounds to the nearest.  [parseInt], the printing of a
      number and the division by ten round the way doubles do.
    - Effects are explicit: a handler is a function from the [world] (cache,
      clock, provider call log, console, history collection) to a new world
      and a response.  The provider, its latencies and the database are
      oracles of the environment [env]. *)

From Stdlib Require Import Ascii String.
From stdpp Require Import base numbers strings list gmap sorting pretty.

Local Open Scope string_scope.
Local Open Scope Z_scope.
Local Open Scope list_scope.

(** ** JavaScript values and objects *)

Inductive value : Type :=
  | VUndefined
  | VNull
  | VBool (b : bool)
  | VNum (n : Z)
  | VStr (s : string).

Global Instance value_eq_dec : EqDecision value.
Proof. solve_decision. Defined.

(** [a === b] on primitive values. *)
Definition strict_eq (a b : value) : bool := bool_decide (a = b).

(** ToBoolean. *)
Definition truthy (v : value) : bool :=
  match v with
  | VUndefined | VNull => false
  | VBool b => b
  | VNum n => negb (Z.eqb n 0)
  | VStr s => negb (String.eqb s EmptyString)
  end.

(** [a || b]. *)
Definition js_or (a b : value) : value := if truthy a then a else b.

(** ** Integers as IEEE doubles *)

(** [p / q] rounded to the nearest integer, a tie going to the even one. *)
Definition round_half_even (p q : N) : N :=
  (let d := p / q in
   let r := p mod q in
   if 2 * r <? q then d
   else if q <? 2 * r then d + 1
   else if N.even d then d else d + 1)%N.

(** The double nearest to the integer [m]: [m] itself below 2^53, beyond
    that [m] rounded to 53 significant bits. *)
Definition to_double (m : N) : N :=
  (if m <? 2 ^ 53 then m
   else let e := N.log2 m - 52 in round_half_even m (2 ^ e) * 2 ^ e)%N.

(** From this magnitude on a number rounds to [Infinity]. *)
Definition double_overflow : N := (2 ^ 1024 - 2 ^ 970)%N.

(** The decimal with the fewest significant digits that still rounds to the
    double [x]; of two with as many digits, the nearer one.  [d] is the
    number of digits of [x], [ks] the digit counts to try. *)
Fixpoint shortest_digits (x : N) (d : nat) (ks : list nat) : N :=
  match ks with
  | [] => x
  | k :: ks' =>
      (let scale := 10 ^ N.of_nat (d - k) in
       let s := x / scale in
       let lo := s * scale in
       let hi := (s + 1) * scale in
       match to_double lo =? x, to_double hi =? x with
       | true, true =>
           if x - lo <? hi - x then lo
           else if hi - x <? x - lo then hi
           else if N.even s then lo else hi
       | true, false => lo
       | false, true => hi
       | false, false => shortest_digits x d ks'
       end)%N
  end.

Fixpoint strip_zeros (fuel : nat) (v : N) : N :=
  match fuel with
  | O => v
  | S fuel' =>
      (if (0 <? v) && (v mod 10 =? 0) then strip_zeros fuel' (v / 10) else v)%N
  end.

(** [1.1805916207174113e+21]: the significant digits with a point after the
    first, and the decimal exponent. *)
Definition exponent_form (v : N) : string :=
  let n := String.length (pretty v) in
  match pretty (strip_zeros n v) with
  | String c EmptyString => String c ("e+" +:+ pretty (n - 1)%nat)
  | String c rest => String c ("." +:+ rest +:+ "e+" +:+ pretty (n - 1)%nat)
  | EmptyString => EmptyString
  end.

(** Number::toString of a non-negative integer double: below 2^53 every
    digit is significant; beyond, the shortest digits that round back,
    padded with zeros up to 21 digits and in exponent form from 1e21. *)
Definition number_to_string (x : N) : string :=
  (if x <? 2 ^ 53 then pretty x
   else
     let v := shortest_digits x (String.length (pretty x)) (seq 1 17) in
     if (String.length (pretty v) <=? 21)%nat then pretty v
     else exponent_form v)%N.

(** ToString, as a template literal applies it. *)
Definition to_string (v : value) : string :=
  match v with
  | VUndefined => "undefined"
  | VNull => "null"
  | VBool true => "true"
  | VBool false => "false"
  | VNum n =>
      if n <? 0 then "-" +:+ number_to_string (to_double (Z.to_N (- n)))
      else number_to_string (to_double (Z.to_N n))
  | VStr s => s
  end.

(** An object: own enumerable properties in insertion order. *)
Definition obj : Type := list (string * value).

(** [o[k]]: the value of property [k], [undefined] when [o] has none. *)
Fixpoint get (k : string) (o : obj) : value :=
  match o with
  | [] => VUndefined
  | (k', v) :: o' => if String.eqb k k' then v else get k o'
  end.

(** [k in o] for own properties. *)
Fixpoint has (k : string) (o : obj) : bool :=
  match o with
  | [] => false
  | (k', _) :: o' => String.eqb k k' || has k o'
  end.

(** Defining property [k] in an object literal after a spread: an existing
    property keeps its place and takes the new value, a new one is appended. *)
Fixpoint set (k : string) (v : value) (o : obj) : obj :=
  match o with
  | [] => [(k, v)]
  | (k', v') :: o' =>
      if String.eqb k k' then (k', v) :: o' else (k', v') :: set k v o'
  end.

(** ** Numbers: [parseInt] and [Math.ceil] *)

(** The result of [parseInt]: an integer double, [NaN], or an infinity
    when the digits read exceed every double. *)
Inductive num : Type :=
  | NaN
  | Num (z : Z)
  | Infinity (negative : bool).

Global Instance num_eq_dec : EqDecision num.
Proof. solve_decision. Defined.

Definition is_whitespace (c : ascii) : bool :=
  let n := N_of_ascii c in
  ((9 <=? n) && (n <=? 13) || (n =? 32) || (n =? 160))%N.

Fixpoint skip_whitespace (s : string) : string :=
  match s with
  | String c s' => if is_whitespace c then skip_whitespace s' else s
  | EmptyString => s
  end.

(** The value of [c] as a digit of the given radix (10 or 16). *)
Definition digit_value (radix : N) (c : ascii) : option N :=
  let n := N_of_ascii c in
  (if (48 <=? n) && (n <=? 57) then Some (n - 48)
   else if (radix =? 16) && (97 <=? n) && (n <=? 102) then Some (n - 87)
   else if (radix =? 16) && (65 <=? n) && (n <=? 70) then Some (n - 55)
   else None)%N.

(** Reads the longest prefix of digits; [acc] is [None] until a digit is
    seen. *)
Fixpoint read_digits (radix : N) (acc : option N) (s : string) : option N :=
  match s with
  | String c s' =>
      match digit_value radix c with
      | Some d => read_digits radix (Some (radix * default 0 acc + d)%N) s'
      | None => acc
      end
  | EmptyString => acc
  end.

(** A leading sign is dropped and remembered. *)
Definition strip_sign (s : string) : bool * string :=
  match s with
  | String c s' =>
      if Ascii.eqb c "-" then (true, s')
      else if Ascii.eqb c "+" then (false, s')
      else (false, s)
  | EmptyString => (false, s)
  end.

(** With no radix given, a leading [0x] or [0X] selects radix 16. *)
Definition strip_hex_prefix (s : string) : N * string :=
  match s with
  | String c1 (String c2 s') =>
      if Ascii.eqb c1 "0" && (Ascii.eqb c2 "x" || Ascii.eqb c2 "X")
      then (16%N, s')
      else (10%N, s)
  | _ => (10%N, s)
  end.

(** The digits are read exactly; the result is the double nearest to the
    integer they spell. *)
Definition parseInt_string (s : string) : num :=
  let '(negative, s1) := strip_sign (skip_whitespace s) in
  let '(radix, s2) := strip_hex_prefix s1 in
  match read_digits radix None s2 with
  | None => NaN
  | Some n =>
      if (double_overflow <=? n)%N then Infinity negative
      else Num (if negative : bool then - Z.of_N (to_double n)
                else Z.of_N (to_double n))
  end.

(** [parseInt(v)] with no radix argument. *)
Definition parseInt (v : value) : num := parseInt_string (to_string v).

(** The double [z / 10] of a positive integer double [z], as a significand
    and the number of its binary places: the quotient is
    [significand / 2^places], and an integer [significand] when [places] is
    [None]. *)
Definition tenth (z : N) : N * option N :=
  (let l := N.log2 (z / 10) in
   if 52 <=? l
   then (round_half_even z (10 * 2 ^ (l - 52)) * 2 ^ (l - 52), None)
   else (round_half_even (z * 2 ^ (52 - l)) 10, Some (52 - l)))%N.

(** [Math.ceil(z / 10)] and [Math.floor(z / 10)] for [z >= 0].  Below ten
    the quotient is a fraction, whatever its rounding. *)
Definition ceil_tenth (z : N) : N :=
  (if z =? 0 then 0
   else if z <? 10 then 1
   else match tenth z with
        | (m, None) => m
        | (m, Some k) => (m + 2 ^ k - 1) / 2 ^ k
        end)%N.

Definition floor_tenth (z : N) : N :=
  (if z <? 10 then 0
   else match tenth z with
        | (m, None) => m
        | (m, Some k) => m / 2 ^ k
        end)%N.

(** [Math.ceil(x / 10)]. *)
Definition ceil_div10 (x : num) : num :=
  match x with
  | NaN => NaN
  | Num z =>
      if z <? 0 then Num (- Z.of_N (floor_tenth (Z.to_N (- z))))
      else Num (Z.of_N (ceil_tenth (Z.to_N z)))
  | Infinity negative => Infinity negative
  end.

(** ** Provider payloads and response bodies *)

(** What the provider sends back: the primitive top-level fields
    ([Response], [Error], [totalResults], [Plot], ...) and, when present,
    the [Search] array of hits. *)
Record payload : Type := Payload {
  fields : obj;
  Search : option (list obj)
}.

(** How an [axios.get] settles: with the response data, or rejected
    (network error, timeout, status outside 2xx) with a message. *)
Inductive outcome : Type :=
  | Reply (data : payload)
  | Fail (message : string).

(** The JSON envelopes the handlers send. *)
Inductive body : Type :=
  | SearchPage (movies : list obj) (totalResults : num)
               (currentPage : Z) (totalPages : num)
  | PopularList (movies : list obj)
  | MovieData (data : payload)
  | MovieFound (movie : payload)
  | Failure (error : value).

Record response : Type := Response {
  status : Z;
  json : body
}.

(** ** The in-memory cache *)

(** An entry of the cache: the stored value and the time (ms) after which
    it is no longer served. *)
Record entry : Type := Entry {
  e_value : body;
  e_expires : Z
}.

(** [new NodeCache({ stdTTL: 3600 })], with the hit and miss counters it
    keeps. *)
Record NodeCache : Type := Cache {
  data : gmap string entry;
  hits : nat;
  misses : nat
}.

Definition stdTTL : Z := 3600.

(** The live value under [key] at time [t]: an entry whose time has passed
    behaves as a miss. *)
Definition lookup_live (c : NodeCache) (t : Z) (key : string) : option body :=
  match data c !! key with
  | Some e => if bool_decide (e_expires e < t) then None else Some (e_value e)
  | None => None
  end.

(** ** The world the handlers run in *)

Inductive exn : Type :=
  | FetchError   (* Error('Failed to fetch data from movie database') *)
  | TypeError    (* reading a property of undefined *)
  | MongoError.  (* a rejected database operation *)

Inductive log_entry : Type :=
  | OMDB_API_Error (message : string)
  | Search_error (e : exn)
  | Database_error (e : exn)
  | Trending_error (search : string) (e : exn)
  | Trending_movies_error (e : exn)
  | Movie_detail_error (e : exn).

(** A document of the [SearchHistory] collection. *)
Record search_history : Type := SearchHistory {
  h_query : string;
  h_timestamp : Z;
  h_results : num;
  h_userIP : string
}.

Record world : Type := World {
  cache : NodeCache;
  now : Z;
  calls : list string;
  console : list log_entry;
  history : list search_history;
  isMongoConnected : bool
}.

(** The environment: configuration, built-ins and the outside parties.
    The provider's answer and its latency (ms) may depend on every request
    issued before; so may the database's. *)
Record env : Type := Env {
  OMDB_API_KEY : string;
  encodeURIComponent : string → string;
  provider : list string → string → outcome;
  latency : list string → string → N;
  db_accepts : list search_history → search_history → bool
}.

(** ** A state and exception monad for the handlers *)

Inductive result (A : Type) : Type :=
  | Ok (a : A)
  | Throw (e : exn).
Arguments Ok {A} a.
Arguments Throw {A} e.

Definition M (A : Type) : Type := world → world * result A.

Global Instance M_ret : MRet M := λ A a w, (w, Ok a).
Global Instance M_bind : MBind M := λ A B f c w,
  match c w with
  | (w', Ok a) => f a w'
  | (w', Throw e) => (w', Throw e)
  end.

Definition throw {A} (e : exn) : M A := λ w, (w, Throw e).

(** [try { c } catch (e) { h e }]: what [c] did before throwing stays done. *)
Definition try_catch {A} (c : M A) (h : exn → M A) : M A := λ w,
  match c w with
  | (w', Ok a) => (w', Ok a)
  | (w', Throw e) => h e w'
  end.

(** The ways a handler changes the world. *)
Definition log_to_console (ls : list log_entry) (w : world) : world :=
  World (cache w) (now w) (calls w) (console w ++ ls) (history w)
        (isMongoConnected w).

Definition elapse (d : Z) (w : world) : world :=
  World (cache w) (now w + d) (calls w) (console w) (history w)
        (isMongoConnected w).

Definition issue (urls : list string) (w : world) : world :=
  World (cache w) (now w) (calls w ++ urls) (console w) (history w)
        (isMongoConnected w).

Definition with_cache (c : NodeCache) (w : world) : world :=
  World c (now w) (calls w) (console w) (history w) (isMongoConnected w).

Definition insert_document (doc : search_history) (w : world) : world :=
  World (cache w) (now w) (calls w) (console w) (history w ++ [doc])
        (isMongoConnected w).

Definition console_error (l : log_entry) : M unit := λ w,
  (log_to_console [l] w, Ok tt).

(** Time passing while the handler awaits. *)
Definition await (d : N) : M unit := λ w, (elapse (Z.of_N d) w, Ok tt).

(** The check a read makes of the entry under [key]: one whose time has
    passed is deleted on the spot ([deleteOnExpire], the default). *)
Definition expire (key : string) (t : Z) (c : NodeCache) : NodeCache :=
  match data c !! key with
  | Some e =>
      if bool_decide (e_expires e < t)
      then Cache (delete key (data c)) (hits c) (misses c)
      else c
  | None => c
  end.

(** [cache.get(key)]: the live value, counted as a hit or a miss; an
    expired entry is dropped by the read. *)
Definition count_read (r : option body) (c : NodeCache) : NodeCache :=
  match r with
  | Some _ => Cache (data c) (S (hits c)) (misses c)
  | None => Cache (data c) (hits c) (S (misses c))
  end.

Definition cache_get (key : string) : M (option body) := λ w,
  let r := lookup_live (cache w) (now w) key in
  (with_cache (count_read r (expire key (now w) (cache w))) w, Ok r).

(** [cache.set(key, value)] with the standard TTL. *)
Definition store (key : string) (v : body) (t : Z) (c : NodeCache) : NodeCache :=
  Cache (<[key := Entry v (t + stdTTL * 1000)]> (data c)) (hits c) (misses c).

Definition cache_set (key : string) (v : body) : M unit := λ w,
  (with_cache (store key v (now w) (cache w)) w, Ok tt).

(** [SearchHistory.create({query, results, userIP})]; the schema's default
    fills in the timestamp. *)
Definition SearchHistory_create (E : env) (query : string) (results : num)
    (userIP : string) : M unit := λ w,
  let doc := SearchHistory query (now w) results userIP in
  if db_accepts E (history w) doc
  then (insert_document doc w, Ok tt)
  else (w, Throw MongoError).

(** ** [makeOMDBRequest] *)

(** The call of [axios.get]: the request goes out and is logged; its
    latency and the way it will settle are the provider's. *)
Definition axios_get (E : env) (url : string) : M (N * outcome) := λ w,
  (issue [url] w, Ok (latency E (calls w) url, provider E (calls w) url)).

(** The rest of [makeOMDBRequest] once the request has settled. *)
Definition settle (o : outcome) : M payload :=
  match o with
  | Reply d => mret d
  | Fail message =>
      console_error (OMDB_API_Error message) ≫= λ _, throw FetchError
  end.

(** [await makeOMDBRequest(url)] in sequential code. *)
Definition makeOMDBRequest (E : env) (url : string) : M payload :=
  '(d, o) ← axios_get E url;
  _ ← await d;
  settle o.

(** ** Requests and [searchSchema] *)

(** The [page] parameter as Joi's number conversion sees it. *)
Inductive raw_page : Type :=
  | PageInt (n : Z)
  | PageFraction
  | PageNotANumber.

(** [req.query] of a search request: each of the two parameters occurs at
    most once, and there is no other parameter. *)
Record search_query : Type := SearchQuery {
  q_query : option string;
  q_page : option raw_page
}.

Inductive http_method : Type := GET | POST | DELETE.

Global Instance http_method_eq_dec : EqDecision http_method.
Proof. solve_decision. Defined.

Record request : Type := Request {
  req_method : http_method;
  req_path : list string;
  req_query : search_query;
  req_ip : string
}.

(** The first rule of [searchSchema] that the input breaks. *)
Inductive joi_error : Type :=
  | any_required_query
  | string_empty_query
  | string_max_query
  | number_base_page
  | number_integer_page
  | number_min_page
  | number_max_page.

(** [searchSchema.validate(req.query)]: the error, or the value with the
    default page filled in. *)
Definition validate (q : search_query) : joi_error + string * Z :=
  match q_query q with
  | None => inl any_required_query
  | Some s =>
      if String.eqb s EmptyString then inl string_empty_query
      else if (100 <? String.length s)%nat then inl string_max_query
      else
        match q_page q with
        | None => inr (s, 1)
        | Some PageNotANumber => inl number_base_page
        | Some PageFraction => inl number_integer_page
        | Some (PageInt n) =>
            if n <? 1 then inl number_min_page
            else if 100 <? n then inl number_max_page
            else inr (s, n)
        end
  end.

Definition dq : string := String (ascii_of_nat 34) EmptyString.

(** [error.details[0].message], in the wording of Joi 17. *)
Definition message (e : joi_error) : string :=
  match e with
  | any_required_query => dq +:+ "query" +:+ dq +:+ " is required"
  | string_empty_query => dq +:+ "query" +:+ dq +:+ " is not allowed to be empty"
  | string_max_query =>
      dq +:+ "query" +:+ dq
         +:+ " length must be less than or equal to 100 characters long"
  | number_base_page => dq +:+ "page" +:+ dq +:+ " must be a number"
  | number_integer_page => dq +:+ "page" +:+ dq +:+ " must be an integer"
  | number_min_page =>
      dq +:+ "page" +:+ dq +:+ " must be greater than or equal to 1"
  | number_max_page =>
      dq +:+ "page" +:+ dq +:+ " must be less than or equal to 100"
  end.

(** ** URLs and cache keys *)

Definition searchUrl (E : env) (query : string) (page : Z) : string :=
  "https://www.omdbapi.com/?apikey=" +:+ OMDB_API_KEY E
    +:+ "&s=" +:+ encodeURIComponent E query +:+ "&page=" +:+ pretty page.

Definition detailUrl (E : env) (id : value) : string :=
  "https://www.omdbapi.com/?apikey=" +:+ OMDB_API_KEY E
    +:+ "&i=" +:+ to_string id.

Definition searchKey (query : string) (page : Z) : string :=
  "search:" +:+ query +:+ ":" +:+ pretty page.

Definition movieKey (id : string) : string := "movie:" +:+ id.

Definition popularKey : string := "popular:movies".

(** ** Enrichment *)

Definition imdbID (movie : obj) : value := get "imdbID" movie.

Definition enrichment_fields : list string :=
  ["Plot"; "Director"; "Actors"; "Genre"; "Runtime"; "imdbRating"; "Awards"].

(** [{...movie, Plot: detailData.Plot, ..., Awards: detailData.Awards}]. *)
Definition with_details (movie detailData : obj) : obj :=
  foldl (λ o k, set k (get k detailData) o) movie enrichment_fields.

(** The callback of [data.Search.map] after its request has settled. *)
Definition resume_enrich (movie : obj) (o : outcome) : M obj :=
  try_catch
    (detailData ← settle o;
     mret (with_details movie (fields detailData)))
    (λ _, mret movie).

(** ** [Promise.all(data.Search.map(async (movie) => ...))] *)

(** [map] runs every callback up to its first [await]: the detail requests
    go out in the order of the hits. *)
Fixpoint start_all (E : env) (movies : list obj) : M (list (N * outcome)) :=
  match movies with
  | [] => mret []
  | movie :: rest =>
      p ← axios_get E (detailUrl E (imdbID movie));
      ps ← start_all E rest;
      mret (p :: ps)
  end.

(** The requests settle by increasing latency. *)
Definition sooner (a b : N * nat) : Prop := (a.1 ≤ b.1)%N.

Global Instance sooner_dec : RelDecision sooner.
Proof. intros a b. unfold sooner. apply _. Defined.

Definition completion_order (latencies : list N) : list nat :=
  (merge_sort sooner (zip latencies (seq 0 (length latencies)))).*2.

(** When request [i] settles its callback resumes, and [Promise.all] puts
    the callback's value into slot [i] of its result array. *)
Definition resume_into (movies : list obj) (pending : list (N * outcome))
    (slots : list (option obj)) (i : nat) : M (list (option obj)) :=
  match movies !! i, pending !! i with
  | Some movie, Some (_, o) =>
      v ← resume_enrich movie o;
      mret (<[i := Some v]> slots)
  | _, _ => mret slots
  end.

Fixpoint resume_all (movies : list obj) (pending : list (N * outcome))
    (slots : list (option obj)) (order : list nat) : M (list (option obj)) :=
  match order with
  | [] => mret slots
  | i :: order' =>
      slots' ← resume_into movies pending slots i;
      resume_all movies pending slots' order'
  end.

Definition max_latency (latencies : list N) : N := foldr N.max 0%N latencies.

Definition Promise_all_map (E : env) (movies : list obj) : M (list obj) :=
  pending ← start_all E movies;
  slots ← resume_all movies pending (replicate (length movies) None)
                     (completion_order pending.*1);
  _ ← await (max_latency pending.*1);
  mret (omap id slots).

(** ** [GET /api/search] *)

Definition read_isMongoConnected : M bool := λ w, (w, Ok (isMongoConnected w)).

Definition search_body (E : env) (req : request) : M response :=
  match validate (req_query req) with
  | inl error => mret (Response 400 (Failure (VStr (message error))))
  | inr (query, page) =>
      let cacheKey := searchKey query page in
      cachedResult ← cache_get cacheKey;
      match cachedResult with
      | Some cached => mret (Response 200 cached)
      | None =>
          let apiUrl := searchUrl E query page in
          data ← makeOMDBRequest E apiUrl;
          response ←
            (if strict_eq (get "Response" (fields data)) (VStr "True") then
               hits ← from_option mret (throw TypeError) (Search data);
               moviesWithDetails ← Promise_all_map E hits;
               let totalResults := parseInt (get "totalResults" (fields data)) in
               let response :=
                 SearchPage moviesWithDetails totalResults page
                            (ceil_div10 totalResults) in
               _ ← try_catch
                     (connected ← read_isMongoConnected;
                      if connected : bool
                      then SearchHistory_create E query totalResults (req_ip req)
                      else mret tt)
                     (λ dbError, console_error (Database_error dbError));
               mret response
             else
               mret (Failure (js_or (get "Error" (fields data))
                                    (VStr "No movies found"))));
          _ ← cache_set cacheKey response;
          mret (Response 200 response)
      end
  end.

Definition search (E : env) (req : request) : M response :=
  try_catch (search_body E req)
    (λ error,
       _ ← console_error (Search_error error);
       mret (Response 500 (Failure (VStr "Internal server error")))).

(** ** [GET /api/popular] *)

Definition trendingSearches : list string :=
  ["Marvel"; "Batman"; "Spider-Man"; "Star Wars"; "Fast";
   "Mission Impossible"; "John Wick"; "Transformers"].

(** [for (const movie of movies) { try { ... push(enriched) } catch
    { push(movie) } }], the array [popularMovies] threaded through. *)
Fixpoint for_movies (E : env) (movies : list obj) (popularMovies : list obj)
    : M (list obj) :=
  match movies with
  | [] => mret popularMovies
  | movie :: rest =>
      pushed ← try_catch
        (detailData ← makeOMDBRequest E (detailUrl E (imdbID movie));
         mret (popularMovies ++ [with_details movie (fields detailData)]))
        (λ _, mret (popularMovies ++ [movie]));
      for_movies E rest pushed
  end.

(** [for (const search of trendingSearches) { try { ... } catch { log } }]. *)
Fixpoint for_searches (E : env) (searches : list string)
    (popularMovies : list obj) : M (list obj) :=
  match searches with
  | [] => mret popularMovies
  | search :: rest =>
      pushed ← try_catch
        (data ← makeOMDBRequest E (searchUrl E search 1);
         if strict_eq (get "Response" (fields data)) (VStr "True") then
           match Search data with
           | Some hits => for_movies E (take 3 hits) popularMovies
           | None => mret popularMovies
           end
         else mret popularMovies)
        (λ error,
           _ ← console_error (Trending_error search error);
           mret popularMovies);
      for_searches E rest pushed
  end.

(** [Array.prototype.findIndex]: the index of the first element satisfying
    [p], or [-1]. *)
Fixpoint findIndex_from {A} (p : A → bool) (l : list A) (i : Z) : Z :=
  match l with
  | [] => -1
  | x :: l' => if p x then i else findIndex_from p l' (i + 1)
  end.

Definition findIndex {A} (p : A → bool) (l : list A) : Z :=
  findIndex_from p l 0.

(** [Array.prototype.filter] with a callback that also takes the index. *)
Fixpoint filter_from {A} (p : A → Z → bool) (l : list A) (i : Z) : list A :=
  match l with
  | [] => []
  | x :: l' =>
      if p x i then x :: filter_from p l' (i + 1)
      else filter_from p l' (i + 1)
  end.

Definition filter_indexed {A} (p : A → Z → bool) (l : list A) : list A :=
  filter_from p l 0.

(** [popularMovies.filter((movie, index, self) => index ===
    self.findIndex(m => m.imdbID === movie.imdbID)).slice(0, 25)]. *)
Definition uniqueMovies (popularMovies : list obj) : list obj :=
  take 25
    (filter_indexed
       (λ movie index,
          index =? findIndex (λ m, strict_eq (imdbID m) (imdbID movie))
                             popularMovies)
       popularMovies).

Definition popular_body (E : env) : M response :=
  cachedResult ← cache_get popularKey;
  match cachedResult with
  | Some cached => mret (Response 200 cached)
  | None =>
      popularMovies ← for_searches E trendingSearches [];
      let response := PopularList (uniqueMovies popularMovies) in
      _ ← cache_set popularKey response;
      mret (Response 200 response)
  end.

Definition popular (E : env) : M response :=
  try_catch (popular_body E)
    (λ error,
       _ ← console_error (Trending_movies_error error);
       mret (Response 500 (Failure (VStr "Failed to fetch trending movies")))).

(** ** [GET /api/movie/:id] and [GET /api/movie/:imdbID] *)

Definition movie_by_id_body (E : env) (id : string) : M response :=
  let cacheKey := movieKey id in
  cachedResult ← cache_get cacheKey;
  match cachedResult with
  | Some cached => mret (Response 200 cached)
  | None =>
      data ← makeOMDBRequest E (detailUrl E (VStr id));
      let response :=
        if strict_eq (get "Response" (fields data)) (VStr "True")
        then MovieData data
        else Failure (js_or (get "Error" (fields data))
                            (VStr "Movie not found")) in
      _ ← cache_set cacheKey response;
      mret (Response 200 response)
  end.

(** The handler registered first for the path. *)
Definition movie_by_id (E : env) (id : string) : M response :=
  try_catch (movie_by_id_body E id)
    (λ error,
       _ ← console_error (Movie_detail_error error);
       mret (Response 500 (Failure (VStr "Failed to fetch movie details")))).

(** The handler registered second for the same path. *)
Definition movie_by_imdbID (E : env) (imdbID : string) : M response :=
  try_catch
    (if String.eqb imdbID EmptyString
     then mret (Response 400 (Failure (VStr "imdbID is required.")))
     else
       data ← makeOMDBRequest E
                ("https://www.omdbapi.com/?apikey=" +:+ OMDB_API_KEY E
                   +:+ "&i=" +:+ encodeURIComponent E imdbID);
       if strict_eq (get "Response" (fields data)) (VStr "True")
       then mret (Response 200 (MovieFound data))
       else mret (Response 404 (Failure (js_or (get "Error" (fields data))
                                               (VStr "Movie not found.")))))
    (λ _, mret (Response 500 (Failure (VStr "Failed to fetch movie.")))).

(** ** Routing *)

(** A segment of a route path: literal text or a named parameter. *)
Inductive segment : Type :=
  | Lit (s : string)
  | Param (name : string).

Inductive handler : Type :=
  | h_register | h_login
  | h_favorites_get | h_favorites_add | h_favorites_remove
  | h_profile | h_movies
  | h_search | h_popular
  | h_movie_id | h_movie_imdbID
  | h_search_history | h_health.

Global Instance handler_eq_dec : EqDecision handler.
Proof. solve_decision. Defined.

(** The routes in the order [app.get], [app.post] and [app.delete]
    register them. *)
Definition routes : list (http_method * list segment * handler) :=
  [ (POST, [Lit "api"; Lit "register"], h_register);
    (POST, [Lit "api"; Lit "login"], h_login);
    (GET, [Lit "api"; Lit "favorites"], h_favorites_get);
    (POST, [Lit "api"; Lit "favorites"], h_favorites_add);
    (DELETE, [Lit "api"; Lit "favorites"], h_favorites_remove);
    (GET, [Lit "api"; Lit "profile"], h_profile);
    (POST, [Lit "api"; Lit "movies"], h_movies);
    (GET, [Lit "api"; Lit "search"], h_search);
    (GET, [Lit "api"; Lit "popular"], h_popular);
    (GET, [Lit "api"; Lit "movie"; Param "id"], h_movie_id);
    (GET, [Lit "api"; Lit "movie"; Param "imdbID"], h_movie_imdbID);
    (GET, [Lit "api"; Lit "search-history"], h_search_history);
    (GET, [Lit "api"; Lit "health"], h_health) ].

Definition lower_ascii (c : ascii) : ascii :=
  let n := N_of_ascii c in
  if ((65 <=? n) && (n <=? 90))%N then ascii_of_N (n + 32) else c.

Fixpoint lower (s : string) : string :=
  match s with
  | String c s' => String (lower_ascii c) (lower s')
  | EmptyString => EmptyString
  end.

(** Matching a path against a route path, segment by segment: literal
    text matches whatever the case, a parameter takes any non-empty
    segment.  The result is [req.params]. *)
Fixpoint match_path (pattern : list segment) (path : list string)
    : option (list (string * string)) :=
  match pattern, path with
  | [], [] => Some []
  | Lit s :: pattern', seg :: path' =>
      if String.eqb (lower s) (lower seg) then match_path pattern' path'
      else None
  | Param name :: pattern', seg :: path' =>
      if String.eqb seg EmptyString then None
      else params ← match_path pattern' path'; Some ((name, seg) :: params)
  | _, _ => None
  end.

(** The first registered route that matches; no handler of this
    application calls [next()], so it is the only one to run. *)
Fixpoint dispatch_in (rs : list (http_method * list segment * handler))
    (req : request) : option (handler * list (string * string)) :=
  match rs with
  | [] => None
  | (m, pattern, h) :: rs' =>
      match (if bool_decide (m = req_method req)
             then match_path pattern (req_path req) else None) with
      | Some params => Some (h, params)
      | None => dispatch_in rs' req
      end
  end.

Definition dispatch (req : request) : option (handler * list (string * string)) :=
  dispatch_in routes req.

Fixpoint param (name : string) (params : list (string * string)) : string :=
  match params with
  | [] => EmptyString
  | (k, v) :: params' => if String.eqb name k then v else param name params'
  end.

(** The application on the routes of this development; the other handlers
    (accounts, favourites, batch fetch, history, health) are outside it.
    A request no route matches reaches the final 404 middleware. *)
Definition serve (E : env) (req : request) : option (M response) :=
  match dispatch req with
  | Some (h_search, _) => Some (search E req)
  | Some (h_popular, _) => Some (popular E)
  | Some (h_movie_id, params) => Some (movie_by_id E (param "id" params))
  | Some (h_movie_imdbID, params) =>
      Some (movie_by_imdbID E (param "imdbID" params))
  | Some _ => None
  | None => Some (mret (Response 404 (Failure (VStr "Endpoint not found"))))
  end.

(** ** What the handlers are compared with *)

(** The definitions of this part do not translate code: they say, in the
    words of the specification, which results and which worlds the handlers
    are then proved to produce. *)

(** The entry for a hit once its detail request has settled: the merged
    record, or the bare hit when the request failed. *)
Definition enriched (movie : obj) (o : outcome) : obj :=
  match o with
  | Reply detailData => with_details movie (fields detailData)
  | Fail _ => movie
  end.

(** Latency and outcome of the detail requests for [movies], issued in
    order after the requests of [log]. *)
Fixpoint pending_of (E : env) (log : list string) (movies : list obj)
    : list (N * outcome) :=
  match movies with
  | [] => []
  | movie :: rest =>
      let url := detailUrl E (imdbID movie) in
      (latency E log url, provider E log url) :: pending_of E (log ++ [url]) rest
  end.

(** What [makeOMDBRequest] logs for the failed requests, in the order the
    requests settle. *)
Definition fetch_errors (pending : list (N * outcome)) (order : list nat)
    : list log_entry :=
  flat_map (λ i, match pending !! i with
                 | Some (_, Fail message) => [OMDB_API_Error message]
                 | _ => []
                 end) order.

(** Slot [i] of the result array taking the value of callback [i], for the
    values [values] of all callbacks. *)
Definition fill (values : list obj) (slots : list (option obj)) (i : nat)
    : list (option obj) :=
  match values !! i with
  | Some v => <[i := Some v]> slots
  | None => slots
  end.

(** The detail requests for a list of hits. *)
Definition detailUrls (E : env) (movies : list obj) : list string :=
  map (λ movie, detailUrl E (imdbID movie)) movies.

(** The world after the steps of a handler. *)
Definition after_lookup (key : string) (w : world) : world :=
  with_cache
    (count_read (lookup_live (cache w) (now w) key)
       (expire key (now w) (cache w))) w.

Definition after_request (E : env) (url : string) (w : world) : world :=
  elapse (Z.of_N (latency E (calls w) url)) (issue [url] w).

Definition after_store (key : string) (v : body) (w : world) : world :=
  with_cache (store key v (now w) (cache w)) w.

Definition after_fan_out (E : env) (movies : list obj) (w : world) : world :=
  let pending := pending_of E (calls w) movies in
  elapse (Z.of_N (max_latency pending.*1))
    (log_to_console (fetch_errors pending (completion_order pending.*1))
       (issue (detailUrls E movies) w)).

Definition after_history (E : env) (query : string) (results : num)
    (userIP : string) (w : world) : world :=
  if isMongoConnected w then
    let doc := SearchHistory query (now w) results userIP in
    if db_accepts E (history w) doc then insert_document doc w
    else log_to_console [Database_error MongoError] w
  else w.

(** The entries of a matched page. *)
Definition entries (E : env) (log : list string) (hits : list obj) : list obj :=
  zip_with enriched hits (pending_of E log hits).*2.

(** The world after one sequential [makeOMDBRequest], settled either way. *)
Definition after_attempt (E : env) (url : string) (w : world) : world :=
  match provider E (calls w) url with
  | Reply _ => after_request E url w
  | Fail message =>
      log_to_console [OMDB_API_Error message] (after_request E url w)
  end.

Fixpoint after_each (E : env) (movies : list obj) (w : world) : world :=
  match movies with
  | [] => w
  | movie :: rest =>
      after_each E rest (after_attempt E (detailUrl E (imdbID movie)) w)
  end.

(** The hits a seed query contributes: the first three of its first page,
    none when the search fails or matches nothing. *)
Definition seed_hits (E : env) (log : list string) (search : string)
    : list obj :=
  match provider E log (searchUrl E search 1) with
  | Reply d =>
      if strict_eq (get "Response" (fields d)) (VStr "True")
      then match Search d with Some hits => take 3 hits | None => [] end
      else []
  | Fail _ => []
  end.

Definition after_seed (E : env) (search : string) (w : world) : world :=
  let url := searchUrl E search 1 in
  match provider E (calls w) url with
  | Reply _ => after_each E (seed_hits E (calls w) search) (after_request E url w)
  | Fail _ =>
      log_to_console [Trending_error search FetchError] (after_attempt E url w)
  end.

(** The accumulated list: per seed in seed order, the entries for its
    hits. *)
Fixpoint accumulate (E : env) (searches : list string) (w : world)
    : list obj :=
  match searches with
  | [] => []
  | search :: rest =>
      entries E (calls w ++ [searchUrl E search 1])
              (seed_hits E (calls w) search)
        ++ accumulate E rest (after_seed E search w)
  end.

(** The hits behind the accumulated list, before enrichment. *)
Fixpoint accumulate_hits (E : env) (searches : list string) (w : world)
    : list obj :=
  match searches with
  | [] => []
  | search :: rest =>
      seed_hits E (calls w) search ++ accumulate_hits E rest (after_seed E search w)
  end.

Fixpoint after_seeds (E : env) (searches : list string) (w : world) : world :=
  match searches with
  | [] => w
  | search :: rest => after_seeds E rest (after_seed E search w)
  end.

(** A hit that carries none of the enrichment fields, as a MovieSummary. *)
Definition is_summary (movie : obj) : Prop :=
  ∀ k, k ∈ enrichment_fields → has k movie = false.

(** Deduplication by id keeping the first occurrence; [seen] are the ids
    already kept. *)
Fixpoint dedup_by_id (seen : list value) (movies : list obj) : list obj :=
  match movies with
  | [] => []
  | movie :: rest =>
      if bool_decide (imdbID movie ∈ seen) then dedup_by_id seen rest
      else movie :: dedup_by_id (imdbID movie :: seen) rest
  end.

(** The least integer [k] with [n <= 10 * k]. *)
Definition is_ceil_of_tenth (n k : Z) : Prop := 10 * (k - 1) < n ≤ 10 * k.

(** The same environment with another latency oracle, or another
    database. *)
Definition with_latency (lat : list string → string → N) (E : env) : env :=
  Env (OMDB_API_KEY E) (encodeURIComponent E) (provider E) lat (db_accepts E).

Definition with_db (accepts : list search_history → search_history → bool)
    (E : env) : env :=
  Env (OMDB_API_KEY E) (encodeURIComponent E) (provider E) (latency E) accepts.

(** A request answered with a validation error, the world untouched: no
    cache read is counted and no request is issued. *)
Definition rejected (E : env) (req : request) (w : world) : Prop :=
  ∃ error,
    search E req w = (w, Ok (Response 400 (Failure (VStr (message error))))).

(** A request that gets past validation. *)
Definition accepted (E : env) (req : request) (w : world) : Prop :=
  ∃ w' r, search E req w = (w', Ok r) ∧ status r ≠ 400.

(** ** A small provider to run the handlers on *)

Definition ex_hit (id : string) : obj :=
  [("Title", VStr ("The " +:+ id)); ("Year", VStr "2008");
   ("imdbID", VStr id); ("Type", VStr "movie"); ("Poster", VStr "N/A")].

Definition ex_page : payload :=
  Payload [("Response", VStr "True"); ("totalResults", VStr "95")]
          (Some [ex_hit "tt1"; ex_hit "tt2"; ex_hit "tt3"]).

Definition ex_nothing : payload :=
  Payload [("Response", VStr "False"); ("Error", VStr "Movie not found!")]
          None.

Definition ex_detail : payload :=
  Payload [("Response", VStr "True"); ("Title", VStr "The Dark Knight");
           ("Plot", VStr "A plot."); ("Director", VStr "A director")]
          None.

(** Searching [batman] finds three hits, the details of [tt2] time out,
    those of [tt1] are slow and [tt0000000] is unknown; every other search
    finds nothing. *)
Definition ex_provider (log : list string) (url : string) : outcome :=
  if String.eqb url "https://www.omdbapi.com/?apikey=k&s=batman&page=1"
  then Reply ex_page
  else if String.eqb url "https://www.omdbapi.com/?apikey=k&i=tt2"
  then Fail "timeout of 10000ms exceeded"
  else if String.eqb url "https://www.omdbapi.com/?apikey=k&i=tt0000000"
  then Reply ex_nothing
  else if String.prefix "https://www.omdbapi.com/?apikey=k&i=" url
  then Reply ex_detail
  else Reply ex_nothing.

Definition ex_latency (log : list string) (url : string) : N :=
  if String.eqb url "https://www.omdbapi.com/?apikey=k&i=tt1"
  then 500%N else 20%N.

Definition ex_env : env :=
  Env "k" (λ s, s) ex_provider ex_latency (λ _ _, true).

(** The provider is down for the very first request and answers after. *)
Definition ex_flaky : env :=
  Env "k" (λ s, s)
      (λ log url, match log with
                  | [] => Fail "connect ECONNREFUSED"
                  | _ => ex_provider log url
                  end)
      ex_latency (λ _ _, true).


(** A provider reporting more results than a double counts exactly. *)
Definition ex_huge_page : payload :=
  Payload [("Response", VStr "True"); ("totalResults", VStr "9007199254740993")]
          (Some [ex_hit "tt1"]).

Definition ex_huge : env :=
  Env "k" (λ s, s) (λ _ _, Reply ex_huge_page) ex_latency (λ _ _, true).

(** Two seed queries with an overlap: [Marvel] finds m1 to m4, [Batman]
    finds m2, b2 and b3; no detail request succeeds. *)
Definition ex_ids (ids : list string) : payload :=
  Payload [("Response", VStr "True")]
          (Some ((λ id, [("imdbID", VStr id)]) <$> ids)).

Definition ex_seeds : env :=
  Env "k" (λ s, s)
      (λ log url,
         if String.eqb url "https://www.omdbapi.com/?apikey=k&s=Marvel&page=1"
         then Reply (ex_ids ["m1"; "m2"; "m3"; "m4"])
         else if String.eqb url
                   "https://www.omdbapi.com/?apikey=k&s=Batman&page=1"
         then Reply (ex_ids ["m2"; "b2"; "b3"])
         else Fail "Request failed with status code 401")
      ex_latency (λ _ _, true).

Definition ex_world : world := World (Cache ∅ 0 0) 1000 [] [] [] true.

(** A cache read long after it was filled: the entries of two searches and
    of a movie expired at 500, and the popular list is still live. *)
Definition ex_stale : world :=
  World
    (Cache {[ searchKey "batman" 1 := Entry (Failure (VStr "Old answer")) 500;
              searchKey "zzzz" 1 := Entry (Failure (VStr "Old answer")) 500;
              movieKey "tt2" := Entry (Failure (VStr "Old answer")) 500;
              popularKey := Entry (PopularList []) 2000 ]} 0 0)
    1000 [] [] [] true.

Definition ex_search (query : option string) (page : option raw_page)
    : request :=
  Request GET ["api"; "search"] (SearchQuery query page) "203.0.113.7".

Definition ex_movie (id : string) : request :=
  Request GET ["api"; "movie"; id] (SearchQuery None None) "203.0.113.7".

(** ** [POST /api/movies] *)

(** The envelopes of the batch handler. *)
Inductive batch_body : Type :=
  | BatchMovies (movies : list payload)
  | BatchFailure (error : string).

Definition batchUrl (E : env) (imdbID : value) : string :=
  "https://www.omdbapi.com/?apikey=" +:+ OMDB_API_KEY E
    +:+ "&i=" +:+ encodeURIComponent E (to_string imdbID).

(** [for (const imdbID of imdbIDs) { data = await makeOMDBRequest(apiUrl);
    if (data.Response === 'True') movies.push(data) }], the array [movies]
    threaded through. *)
Fixpoint fetch_each (E : env) (imdbIDs : list value) (movies : list payload)
    : M (list payload) :=
  match imdbIDs with
  | [] => mret movies
  | imdbID :: rest =>
      data ← makeOMDBRequest E (batchUrl E imdbID);
      fetch_each E rest
        (if strict_eq (get "Response" (fields data)) (VStr "True")
         then movies ++ [data] else movies)
  end.

(** The handler; [imdbIDs] is [None] when [req.body.imdbIDs] is not an
    array, and its elements are primitive values. *)
Definition movies_batch (E : env) (imdbIDs : option (list value))
    : M (Z * batch_body) :=
  match imdbIDs with
  | None => mret (400, BatchFailure "imdbIDs must be an array.")
  | Some ids =>
      try_catch
        (movies ← fetch_each E ids [];
         mret (200, BatchMovies movies))
        (λ _, mret (500, BatchFailure "Failed to fetch movies."))
  end.

(** ** [GET /api/search-history] *)

(** What [select('query timestamp results')] keeps of a document. *)
Record history_item : Type := HistoryItem {
  i_query : string;
  i_timestamp : Z;
  i_results : num
}.

Definition select_item (doc : search_history) : history_item :=
  HistoryItem (h_query doc) (h_timestamp doc) (h_results doc).

(** [sort({ timestamp: -1 })]: a document comes before the ones that are
    not newer. *)
Definition newer (a b : search_history) : Prop :=
  h_timestamp b ≤ h_timestamp a.

Global Instance newer_dec : RelDecision newer.
Proof. intros a b. unfold newer. apply _. Defined.

(** [SearchHistory.find().sort({ timestamp: -1 }).limit(50)
    .select('query timestamp results')]. *)
Definition recent_history (docs : list search_history) : list history_item :=
  select_item <$> take 50 (merge_sort newer docs).

(** The envelope [{success, data, message}]. *)
Record history_body : Type := HistoryBody {
  hb_success : bool;
  hb_data : list history_item;
  hb_message : option string
}.

(** The handler; [find_ok] tells whether the query goes through.  The
    second component is what the handler writes to the console. *)
Definition search_history_handler (find_ok : bool) (w : world)
    : Z * history_body * option exn :=
  if negb (isMongoConnected w) then
    (200,
     HistoryBody true []
       (Some "Search history not available - database not connected"),
     None)
  else if find_ok then
    (200, HistoryBody true (recent_history (history w)) None, None)
  else
    (200,
     HistoryBody true [] (Some "Search history temporarily unavailable"),
     Some MongoError).

(** ** Accounts: [authenticateJWT] and the favorites *)

(** A document of the [User] collection. *)
Record user : Type := User {
  u_email : string;
  u_username : string;
  u_password : string;
  u_favorites : list string
}.

(** The outside parties of the account handlers: [jwt.verify] gives the
    [userId] of the decoded token, or [None] when it throws; the two flags
    tell whether [User.findById] and [user.save] go through (they reject
    when the database cannot be reached or refuses the operation). *)
Record accounts_env : Type := AccountsEnv {
  jwt_verify : string → option string;
  find_ok : bool;
  save_ok : bool
}.

(** The envelopes of the favorites handlers. *)
Inductive favorites_body : Type :=
  | Favorites (favorites : list string)
  | FavoritesFailure (error : string).

(** [s.split(sep)] for a separator of one character. *)
Fixpoint split_on (sep : ascii) (s : string) : list string :=
  match s with
  | EmptyString => [EmptyString]
  | String c s' =>
      if Ascii.eqb c sep then EmptyString :: split_on sep s'
      else match split_on sep s' with
           | piece :: pieces => String c piece :: pieces
           | [] => [String c EmptyString]
           end
  end.

(** The middleware: the response that ends the request, or the [userId]
    it hands on in [req.user]. *)
Definition authenticateJWT (A : accounts_env) (authHeader : option string)
    : Z * favorites_body + string :=
  match authHeader with
  | None => inl (401, FavoritesFailure "No token provided.")
  | Some header =>
      if String.eqb header EmptyString || negb (String.prefix "Bearer " header)
      then inl (401, FavoritesFailure "No token provided.")
      else
        match split_on " " header !! 1%nat with
        | Some token =>
            match jwt_verify A token with
            | Some userId => inr userId
            | None => inl (401, FavoritesFailure "Invalid token.")
            end
        | None => inl (401, FavoritesFailure "Invalid token.")
        end
  end.

Definition set_favorites (favorites : list string) (u : user) : user :=
  User (u_email u) (u_username u) (u_password u) favorites.

(** [favorites.filter(id => id !== imdbID)]. *)
Definition without (imdbID : string) (favorites : list string) : list string :=
  filter (λ id, id ≠ imdbID) favorites.

(** [POST /api/favorites]; [imdbID] is [req.body.imdbID], a string when
    present. *)
Definition add_favorite (A : accounts_env) (authHeader imdbID : option string)
    (users : gmap string user) : gmap string user * (Z * favorites_body) :=
  match authenticateJWT A authHeader with
  | inl answer => (users, answer)
  | inr userId =>
      match imdbID with
      | None => (users, (400, FavoritesFailure "imdbID required."))
      | Some id =>
          if String.eqb id EmptyString
          then (users, (400, FavoritesFailure "imdbID required."))
          else if negb (find_ok A)
          then (users, (500, FavoritesFailure "Failed to add favorite."))
          else
            match users !! userId with
            | None => (users, (404, FavoritesFailure "User not found."))
            | Some u =>
                if bool_decide (id ∈ u_favorites u)
                then (users, (200, Favorites (u_favorites u)))
                else
                  let favorites := u_favorites u ++ [id] in
                  if save_ok A
                  then (<[userId := set_favorites favorites u]> users,
                        (200, Favorites favorites))
                  else (users,
                        (500, FavoritesFailure "Failed to add favorite."))
            end
      end
  end.

(** [DELETE /api/favorites]. *)
Definition remove_favorite (A : accounts_env)
    (authHeader imdbID : option string) (users : gmap string user)
    : gmap string user * (Z * favorites_body) :=
  match authenticateJWT A authHeader with
  | inl answer => (users, answer)
  | inr userId =>
      match imdbID with
      | None => (users, (400, FavoritesFailure "imdbID required."))
      | Some id =>
          if String.eqb id EmptyString
          then (users, (400, FavoritesFailure "imdbID required."))
          else if negb (find_ok A)
          then (users, (500, FavoritesFailure "Failed to remove favorite."))
          else
            match users !! userId with
            | None => (users, (404, FavoritesFailure "User not found."))
            | Some u =>
                let favorites := without id (u_favorites u) in
                if save_ok A
                then (<[userId := set_favorites favorites u]> users,
                      (200, Favorites favorites))
                else (users,
                      (500, FavoritesFailure "Failed to remove favorite."))
            end
      end
  end.

(** [GET /api/favorites]. *)
Definition get_favorites (A : accounts_env) (authHeader : option string)
    (users : gmap string user) : Z * favorites_body :=
  match authenticateJWT A authHeader with
  | inl answer => answer
  | inr userId =>
      if negb (find_ok A)
      then (500, FavoritesFailure "Failed to get favorites.")
      else
        match users !! userId with
        | None => (404, FavoritesFailure "User not found.")
        | Some u => (200, Favorites (u_favorites u))
        end
  end.

(** ** More of what the handlers are compared with *)

(** Whether a string has a colon. *)
Fixpoint has_colon (s : string) : bool :=
  match s with
  | EmptyString => false
  | String c s' => Ascii.eqb c ":" || has_colon s'
  end.

(** Whether a string has a space. *)
Fixpoint has_space (s : string) : bool :=
  match s with
  | EmptyString => false
  | String c s' => Ascii.eqb c " " || has_space s'
  end.

(** The batch requests for a list of ids, and how they settle when issued
    one after the other following the requests of [log]. *)
Definition batchUrls (E : env) (imdbIDs : list value) : list string :=
  map (batchUrl E) imdbIDs.

Fixpoint batch_outcomes (E : env) (log : list string) (imdbIDs : list value)
    : list outcome :=
  match imdbIDs with
  | [] => []
  | imdbID :: rest =>
      provider E log (batchUrl E imdbID)
        :: batch_outcomes E (log ++ [batchUrl E imdbID]) rest
  end.

(** The payloads of the answered requests that report a movie. *)
Definition found_movies (outcomes : list outcome) : list payload :=
  flat_map (λ o, match o with
                 | Reply d =>
                     if strict_eq (get "Response" (fields d)) (VStr "True")
                     then [d] else []
                 | Fail _ => []
                 end) outcomes.

Definition is_reply (o : outcome) : Prop := ∃ d, o = Reply d.

(** A provider that is down: every request is rejected. *)
Definition provider_down (E : env) : Prop :=
  ∀ log url, ∃ cause, provider E log url = Fail cause.

(** ** More inputs to run the handlers on *)

Definition ex_down : env :=
  Env "k" (λ s, s) (λ _ _, Fail "getaddrinfo ENOTFOUND") ex_latency
      (λ _ _, true).

Definition ex_accounts : accounts_env :=
  AccountsEnv (λ token, if String.eqb token "good" then Some "u1" else None)
              true true.

Definition ex_users : gmap string user :=
  {[ "u1" := User "a@example.org" "ann" "hash" ["tt1"; "tt2"];
     "u2" := User "b@example.org" "bob" "hash" ["tt9"] ]}.

Definition ex_docs : list search_history :=
  [SearchHistory "batman" 10 (Num 95) "203.0.113.7";
   SearchHistory "marvel" 30 (Num 12) "203.0.113.8";
   SearchHistory "fast" 20 (Num 40) "203.0.113.9"].

(** * Properties *)

(** ** Objects *)

Lemma get_set_eq k v o : get k (set k v o) = v.
Proof.
  induction o as [|[k' v'] o IH]; simpl.
  - by rewrite String.eqb_refl.
  - destruct (String.eqb k k') eqn:Hk; simpl; by rewrite Hk.
Qed.

Lemma get_set_ne k k' v o : k ≠ k' → get k' (set k v o) = get k' o.
Proof.
  intros Hne. induction o as [|[k0 v0] o IH]; simpl.
  - destruct (String.eqb_spec k' k); congruence.
  - destruct (String.eqb_spec k k0) as [->|]; simpl.
    + destruct (String.eqb_spec k' k0); congruence.
    + by rewrite IH.
Qed.

(** Merging the detail fields leaves every other property alone. *)
Lemma with_details_other k movie detailData :
  k ∉ enrichment_fields →
  get k (with_details movie detailData) = get k movie.
Proof.
  unfold with_details. generalize enrichment_fields as ks.
  intros ks. revert movie.
  induction ks as [|k0 ks IH]; intros movie Hk; simpl; [done|].
  rewrite IH by set_solver. apply get_set_ne. set_solver.
Qed.

(** Merging gives every enrichment field the value the detail record has
    for it ([undefined] when it has none). *)
Lemma with_details_field k movie detailData :
  k ∈ enrichment_fields →
  get k (with_details movie detailData) = get k detailData.
Proof.
  intros Hk. unfold with_details, enrichment_fields in *. cbn [foldl].
  repeat (apply elem_of_cons in Hk as [->|Hk];
          [repeat (rewrite get_set_ne by discriminate); apply get_set_eq|]).
  by apply elem_of_nil in Hk.
Qed.

(** Enrichment never changes the id. *)
Lemma imdbID_enriched movie o : imdbID (enriched movie o) = imdbID movie.
Proof.
  destruct o; simpl; [|done]. unfold imdbID. apply with_details_other.
  apply (bool_decide_unpack _). by vm_compute.
Qed.

(** ** The monad *)

Lemma log_to_console_nil w : log_to_console [] w = w.
Proof. destruct w; unfold log_to_console; simpl. by rewrite app_nil_r. Qed.

Lemma log_to_console_app ls1 ls2 w :
  log_to_console ls2 (log_to_console ls1 w) = log_to_console (ls1 ++ ls2) w.
Proof. unfold log_to_console; simpl. by rewrite app_assoc. Qed.

Lemma issue_nil w : issue [] w = w.
Proof. destruct w; unfold issue; simpl. by rewrite app_nil_r. Qed.

Lemma issue_app us1 us2 w : issue us2 (issue us1 w) = issue (us1 ++ us2) w.
Proof. unfold issue; simpl. by rewrite app_assoc. Qed.

Lemma bind_run {A B} (c : M A) (f : A → M B) w w' a :
  c w = (w', Ok a) → (c ≫= f) w = f a w'.
Proof. unfold mbind, M_bind. by intros ->. Qed.

Lemma bind_throw {A B} (c : M A) (f : A → M B) w w' e :
  c w = (w', Throw e) → (c ≫= f) w = (w', Throw e).
Proof. unfold mbind, M_bind. by intros ->. Qed.

Lemma try_run {A} (c : M A) h w w' a :
  c w = (w', Ok a) → try_catch c h w = (w', Ok a).
Proof. unfold try_catch. by intros ->. Qed.

Lemma try_caught {A} (c : M A) h w w' e :
  c w = (w', Throw e) → try_catch c h w = h e w'.
Proof. unfold try_catch. by intros ->. Qed.

(** ** [makeOMDBRequest] *)

Lemma makeOMDBRequest_reply E url w d :
  provider E (calls w) url = Reply d →
  makeOMDBRequest E url w
  = (elapse (Z.of_N (latency E (calls w) url)) (issue [url] w), Ok d).
Proof.
  intros Hp. unfold makeOMDBRequest, axios_get, mbind, M_bind, await.
  by rewrite Hp.
Qed.

Lemma makeOMDBRequest_fail E url w message :
  provider E (calls w) url = Fail message →
  makeOMDBRequest E url w
  = (log_to_console [OMDB_API_Error message]
       (elapse (Z.of_N (latency E (calls w) url)) (issue [url] w)),
     Throw FetchError).
Proof.
  intros Hp. unfold makeOMDBRequest, axios_get, mbind, M_bind, await.
  by rewrite Hp.
Qed.

(** ** The enrichment fan-out *)

Lemma resume_enrich_run movie o w :
  resume_enrich movie o w
  = (log_to_console (match o with
                     | Fail message => [OMDB_API_Error message]
                     | Reply _ => []
                     end) w,
     Ok (enriched movie o)).
Proof.
  unfold resume_enrich, try_catch, settle. destruct o as [d|message]; simpl.
  - by rewrite log_to_console_nil.
  - done.
Qed.

Lemma start_all_run E movies w :
  start_all E movies w
  = (issue (detailUrls E movies) w, Ok (pending_of E (calls w) movies)).
Proof.
  revert w. induction movies as [|movie rest IH]; intros w; simpl.
  - by rewrite issue_nil.
  - unfold mbind, M_bind, axios_get. rewrite IH. simpl.
    by rewrite issue_app.
Qed.

Lemma length_pending_of E log movies :
  length (pending_of E log movies) = length movies.
Proof.
  revert log. induction movies as [|movie rest IH]; intros log; simpl; auto.
Qed.

Lemma resume_into_run movies pending slots i w :
  length pending = length movies →
  resume_into movies pending slots i w
  = (log_to_console (fetch_errors pending [i]) w,
     Ok (fill (zip_with enriched movies pending.*2) slots i)).
Proof.
  intros Hlen. unfold resume_into, fill, fetch_errors. simpl.
  rewrite lookup_zip_with, list_lookup_fmap, app_nil_r.
  destruct (movies !! i) as [movie|] eqn:Hm.
  - destruct (pending !! i) as [[d o]|] eqn:Hp.
    + erewrite bind_run by apply resume_enrich_run. by destruct o.
    + apply lookup_lt_Some in Hm. apply lookup_ge_None in Hp. lia.
  - apply lookup_ge_None in Hm.
    rewrite (proj2 (lookup_ge_None pending i)) by lia.
    by rewrite log_to_console_nil.
Qed.

Lemma resume_all_run movies pending slots order w :
  length pending = length movies →
  resume_all movies pending slots order w
  = (log_to_console (fetch_errors pending order) w,
     Ok (foldl (fill (zip_with enriched movies pending.*2)) slots order)).
Proof.
  intros Hlen. revert slots w.
  induction order as [|i order IH]; intros slots w.
  - simpl. by rewrite log_to_console_nil.
  - cbn [resume_all foldl].
    erewrite bind_run by by apply resume_into_run.
    rewrite IH, log_to_console_app. unfold fetch_errors. simpl.
    by rewrite app_nil_r.
Qed.

Lemma length_foldl_fill values slots order :
  length (foldl (fill values) slots order) = length slots.
Proof.
  revert slots. induction order as [|i order IH]; intros slots; simpl; [done|].
  rewrite IH. unfold fill. destruct (values !! i); [|done].
  by rewrite length_insert.
Qed.

Lemma lookup_foldl_fill values slots order i :
  length slots = length values →
  foldl (fill values) slots order !! i
  = if bool_decide (i ∈ order) then Some <$> values !! i else slots !! i.
Proof.
  intros Hlen. revert slots Hlen.
  induction order as [|j order IH]; intros slots Hlen; cbn [foldl].
  - rewrite bool_decide_eq_false_2; [done|]. apply not_elem_of_nil.
  - rewrite IH.
    2:{ unfold fill. destruct (values !! j); [|done]. by rewrite length_insert. }
    destruct (decide (i ∈ order)) as [Hin|Hin].
    + rewrite !bool_decide_eq_true_2; [done| |done]. by right.
    + rewrite (bool_decide_eq_false_2 _ Hin).
      destruct (decide (i = j)) as [->|Hne].
      * rewrite bool_decide_eq_true_2 by left. unfold fill.
        destruct (values !! j) as [v|] eqn:Hv; simpl.
        -- apply list_lookup_insert_eq. rewrite Hlen.
           by apply lookup_lt_Some in Hv.
        -- apply lookup_ge_None. rewrite Hlen. by apply lookup_ge_None.
      * rewrite bool_decide_eq_false_2.
        -- unfold fill. destruct (values !! j); [|done].
           by apply list_lookup_insert_ne.
        -- rewrite elem_of_cons. tauto.
Qed.

Lemma omap_id_Some {A} (l : list A) : omap id (Some <$> l) = l.
Proof. induction l as [|x l IH]; [done|]. cbn. f_equal. apply IH. Qed.

(** Whatever the order in which the requests settle, as long as each
    settles, the slots end up holding the values in the order of the
    callbacks. *)
Lemma fill_in_any_order (values : list obj) (order : list nat) :
  order ≡ₚ seq 0 (length values) →
  omap id (foldl (fill values) (replicate (length values) None) order) = values.
Proof.
  intros Hperm.
  assert (foldl (fill values) (replicate (length values) None) order
          = Some <$> values) as ->.
  { apply list_eq. intros i.
    rewrite lookup_foldl_fill by by rewrite length_replicate.
    rewrite list_lookup_fmap.
    destruct (decide (i ∈ order)) as [Hin|Hin].
    - by rewrite bool_decide_eq_true_2.
    - rewrite bool_decide_eq_false_2 by done.
      assert (length values ≤ i)%nat as Hge.
      { destruct (decide (i < length values)%nat) as [Hlt|]; [|lia].
        exfalso. apply Hin. rewrite Hperm. apply elem_of_seq. lia. }
      rewrite (proj2 (lookup_ge_None values i)) by done. simpl.
      apply lookup_ge_None. by rewrite length_replicate. }
  apply omap_id_Some.
Qed.

Lemma completion_order_perm latencies :
  completion_order latencies ≡ₚ seq 0 (length latencies).
Proof.
  unfold completion_order. rewrite merge_sort_Permutation.
  rewrite snd_zip; [done|]. by rewrite length_seq.
Qed.

(** [Promise.all] over the mapped hits resolves, and with the entries in
    the order of the hits. *)
Lemma Promise_all_map_run E movies w :
  Promise_all_map E movies w
  = (after_fan_out E movies w, Ok (entries E (calls w) movies)).
Proof.
  unfold after_fan_out, entries. set (pending := pending_of E (calls w) movies).
  unfold Promise_all_map, mbind, M_bind.
  rewrite start_all_run. fold pending.
  assert (length pending = length movies) as Hlen
    by apply length_pending_of.
  rewrite resume_all_run by done. unfold await, mret, M_ret.
  do 2 f_equal.
  assert (length movies = length (zip_with enriched movies pending.*2)) as ->.
  { rewrite length_zip_with, length_fmap. lia. }
  apply fill_in_any_order.
  rewrite completion_order_perm.
  by rewrite length_zip_with, !length_fmap, Hlen, Nat.min_id.
Qed.

(** ** The paths through [GET /api/search] *)

Section search_paths.
Context (E : env) (req : request) (w : world).
Context (query : string) (page : Z).

Local Abbreviation key := (searchKey query page).
Local Abbreviation url := (searchUrl E query page).
Local Abbreviation w1 := (after_lookup key w).
Local Abbreviation w2 := (after_request E url w1).

(** Rejected input: nothing is read, nothing is called. *)
Lemma search_rejected error :
  validate (req_query req) = inl error →
  search E req w = (w, Ok (Response 400 (Failure (VStr (message error))))).
Proof.
  intros Hv. unfold search, try_catch, search_body. by rewrite Hv.
Qed.

(** A live entry is served as it is. *)
Lemma search_cached cached :
  validate (req_query req) = inr (query, page) →
  lookup_live (cache w) (now w) key = Some cached →
  search E req w = (w1, Ok (Response 200 cached)).
Proof.
  intros Hv Hc. unfold search, try_catch, search_body. rewrite Hv.
  unfold mbind, M_bind, cache_get, after_lookup. by rewrite Hc.
Qed.

Lemma search_lookup_miss :
  lookup_live (cache w) (now w) key = None →
  cache_get key w = (w1, Ok None).
Proof.
  intros Hc. unfold cache_get, after_lookup. by rewrite Hc.
Qed.

(** The primary request is rejected. *)
Lemma search_unavailable cause :
  validate (req_query req) = inr (query, page) →
  lookup_live (cache w) (now w) key = None →
  provider E (calls w) url = Fail cause →
  search E req w
  = (log_to_console [OMDB_API_Error cause; Search_error FetchError] w2,
     Ok (Response 500 (Failure (VStr "Internal server error")))).
Proof.
  intros Hv Hc Hp. unfold search, search_body. rewrite Hv.
  erewrite try_caught.
  2:{ erewrite bind_run by by apply search_lookup_miss.
      apply bind_throw. by apply makeOMDBRequest_fail. }
  unfold mbind, M_bind, console_error, mret, M_ret.
  by rewrite log_to_console_app.
Qed.

(** The provider reports no match. *)
Lemma search_no_match d :
  validate (req_query req) = inr (query, page) →
  lookup_live (cache w) (now w) key = None →
  provider E (calls w) url = Reply d →
  get "Response" (fields d) ≠ VStr "True" →
  let response :=
    Failure (js_or (get "Error" (fields d)) (VStr "No movies found")) in
  search E req w = (after_store key response w2, Ok (Response 200 response)).
Proof.
  intros Hv Hc Hp Hr response. unfold search, search_body. rewrite Hv.
  apply try_run.
  erewrite bind_run by by apply search_lookup_miss. cbv beta iota.
  erewrite bind_run by by apply makeOMDBRequest_reply. cbv beta iota.
  unfold strict_eq. by rewrite bool_decide_eq_false_2.
Qed.

(** The provider reports a match without a [Search] array. *)
Lemma search_malformed d :
  validate (req_query req) = inr (query, page) →
  lookup_live (cache w) (now w) key = None →
  provider E (calls w) url = Reply d →
  get "Response" (fields d) = VStr "True" →
  Search d = None →
  search E req w
  = (log_to_console [Search_error TypeError] w2,
     Ok (Response 500 (Failure (VStr "Internal server error")))).
Proof.
  intros Hv Hc Hp Hr Hs. unfold search, search_body. rewrite Hv.
  erewrite try_caught; [done|].
  erewrite bind_run by by apply search_lookup_miss. cbv beta iota.
  erewrite bind_run by by apply makeOMDBRequest_reply. cbv beta iota.
  rewrite Hr, Hs. unfold strict_eq. rewrite bool_decide_eq_true_2 by done.
  done.
Qed.

(** The history step never throws. *)
Lemma save_history_run totalResults w3 :
  try_catch
    (connected ← read_isMongoConnected;
     if connected : bool
     then SearchHistory_create E query totalResults (req_ip req)
     else mret tt)
    (λ dbError, console_error (Database_error dbError)) w3
  = (after_history E query totalResults (req_ip req) w3, Ok tt).
Proof.
  unfold try_catch, mbind, M_bind, read_isMongoConnected, after_history,
    SearchHistory_create.
  destruct (isMongoConnected w3); [|done].
  by destruct (db_accepts E (history w3) _).
Qed.

(** The provider reports a match. *)
Lemma search_matched d hits :
  validate (req_query req) = inr (query, page) →
  lookup_live (cache w) (now w) key = None →
  provider E (calls w) url = Reply d →
  get "Response" (fields d) = VStr "True" →
  Search d = Some hits →
  let totalResults := parseInt (get "totalResults" (fields d)) in
  let response :=
    SearchPage (entries E (calls w2) hits) totalResults page
               (ceil_div10 totalResults) in
  search E req w
  = (after_store key response
       (after_history E query totalResults (req_ip req)
          (after_fan_out E hits w2)),
     Ok (Response 200 response)).
Proof.
  intros Hv Hc Hp Hr Hs totalResults response.
  unfold search, search_body. rewrite Hv.
  apply try_run.
  erewrite bind_run by by apply search_lookup_miss. cbv beta iota.
  erewrite bind_run by by apply makeOMDBRequest_reply. cbv beta iota.
  rewrite Hr, Hs. simpl from_option.
  unfold strict_eq. rewrite bool_decide_eq_true_2 by done.
  erewrite bind_run; [done|].
  erewrite bind_run by done.
  erewrite bind_run by apply Promise_all_map_run.
  erewrite bind_run by apply save_history_run. done.
Qed.
End search_paths.

(** ** [parseInt] on decimal numerals *)

Lemma digit_value_pretty d :
  (d < 10)%N → digit_value 10 (pretty_N_char d) = Some d.
Proof.
  intros Hd.
  assert (d = 0 ∨ d = 1 ∨ d = 2 ∨ d = 3 ∨ d = 4 ∨ d = 5 ∨ d = 6 ∨ d = 7
          ∨ d = 8 ∨ d = 9)%N as Hcases by lia.
  repeat (destruct Hcases as [->|Hcases]; [done|]). by subst.
Qed.

(** Reading a numeral printed in front of [s] shifts the accumulator by
    the numeral's digits and carries on with [s]. *)
Lemma read_digits_pretty_go x :
  ∀ s, ∃ k : N, ∀ acc,
    read_digits 10 (Some acc) (pretty_N_go x s)
    = read_digits 10 (Some (acc * 10 ^ k + x)%N) s.
Proof.
  induction (N.lt_wf_0 x) as [x _ IH]. intros s.
  destruct (decide (x = 0)%N) as [->|Hx].
  - exists 0%N. intros acc. rewrite pretty_N_go_0, N.pow_0_r.
    apply (f_equal (λ a, read_digits 10 (Some a) s)). lia.
  - rewrite pretty_N_go_step by lia.
    destruct (IH (x `div` 10)%N) with
      (s := String (pretty_N_char (x `mod` 10)) s) as [k Hk].
    { apply N.div_lt; lia. }
    exists (k + 1)%N. intros acc. rewrite Hk. cbn [read_digits].
    rewrite digit_value_pretty by (apply N.mod_lt; lia).
    apply (f_equal (λ a, read_digits 10 (Some a) s)). unfold default, id.
    rewrite N.pow_add_r, N.pow_1_r.
    pose proof (N.div_mod x 10). lia.
Qed.

(** A positive number is printed with a leading digit from 1 to 9. *)
Lemma pretty_go_head x s :
  (0 < x)%N →
  ∃ d rest, (0 < d < 10)%N ∧ pretty_N_go x s = String (pretty_N_char d) rest.
Proof.
  revert s. induction (N.lt_wf_0 x) as [x _ IH]. intros s Hx.
  rewrite pretty_N_go_step by done.
  destruct (decide (x < 10)%N) as [Hlt|Hge].
  - rewrite N.div_small, N.mod_small by done. rewrite pretty_N_go_0.
    exists x, s. split; [lia|done].
  - apply IH.
    + apply N.div_lt; lia.
    + apply N.div_str_pos. lia.
Qed.

(** Up to 2^53 every integer is a double, and far from overflowing. *)
Lemma to_double_safe (n : N) : (n ≤ 2 ^ 53)%N → to_double n = n.
Proof.
  intros Hn. unfold to_double. destruct (N.ltb_spec n (2 ^ 53)) as [|Hge]; [done|].
  assert (n = 2 ^ 53)%N as -> by lia. by vm_compute.
Qed.

Lemma double_overflow_safe (n : N) :
  (n ≤ 2 ^ 53)%N → (double_overflow <=? n)%N = false.
Proof.
  intros Hn. apply N.leb_gt.
  assert (2 ^ 53 < double_overflow)%N by (by apply N.ltb_lt; vm_compute). lia.
Qed.

Lemma parseInt_string_pretty (n : N) :
  (n ≤ 2 ^ 53)%N → parseInt_string (pretty n) = Num (Z.of_N n).
Proof.
  intros Hsafe.
  unfold pretty, pretty_N. destruct (decide (n = 0)%N) as [->|Hn]; [done|].
  destruct (pretty_go_head n EmptyString) as (d & rest & Hd & Hhead); [lia|].
  destruct (read_digits_pretty_go n EmptyString) as [k Hk].
  specialize (Hk 0%N). simpl in Hk. rewrite Hhead in Hk |- *.
  assert (d = 1 ∨ d = 2 ∨ d = 3 ∨ d = 4 ∨ d = 5 ∨ d = 6 ∨ d = 7
          ∨ d = 8 ∨ d = 9)%N as Hcases by lia.
  assert (parseInt_string (String (pretty_N_char d) rest)
          = match read_digits 10 (Some 0%N) (String (pretty_N_char d) rest) with
            | Some m =>
                if (double_overflow <=? m)%N then Infinity false
                else Num (Z.of_N (to_double m))
            | None => NaN
            end) as ->.
  { unfold parseInt_string.
    repeat (destruct Hcases as [->|Hcases];
            [by destruct rest as [|c2 rest]|]).
    subst d. by destruct rest as [|c2 rest]. }
  by rewrite Hk, double_overflow_safe, to_double_safe.
Qed.

(** [parseInt] of a count, sent as a numeral or as a number. *)
Lemma parseInt_count v (n : N) :
  (n ≤ 2 ^ 53)%N → to_string v = pretty n → parseInt v = Num (Z.of_N n).
Proof. unfold parseInt. intros Hn ->. by apply parseInt_string_pretty. Qed.

(** Up to 2^53 the quotient by ten keeps at least three binary places, so
    its rounding never reaches the next integer and the ceiling is exact. *)
Lemma ceil_tenth_exact (z : N) :
  (z ≤ 2 ^ 53)%N → is_ceil_of_tenth (Z.of_N z) (Z.of_N (ceil_tenth z)).
Proof.
  intros Hz. unfold is_ceil_of_tenth, ceil_tenth.
  destruct (N.eqb_spec z 0) as [->|Hz0]; [lia|].
  destruct (N.ltb_spec z 10) as [|Hz10]; [lia|].
  unfold tenth.
  assert (N.log2 (z `div` 10) < 50)%N as Hl.
  { apply N.log2_lt_pow2.
    - apply N.div_str_pos. lia.
    - apply N.Div0.div_lt_upper_bound.
      assert (2 ^ 53 < 10 * 2 ^ 50)%N by (by apply N.ltb_lt; vm_compute). lia. }
  destruct (N.leb_spec 52 (N.log2 (z `div` 10))) as [|_]; [lia|].
  set (k := (52 - N.log2 (z `div` 10))%N).
  assert (8 ≤ 2 ^ k)%N as HP.
  { change 8%N with (2 ^ 3)%N. apply N.pow_le_mono_r; [done|]. subst k. lia. }
  generalize dependent (2 ^ k)%N. intros P HP. clear k.
  pose proof (N.div_mod (z * P) 10 ltac:(lia)) as Hdm.
  pose proof (N.mod_lt (z * P) 10 ltac:(lia)) as Hr.
  assert (10 * round_half_even (z * P) 10 - 5 ≤ z * P
          ≤ 10 * round_half_even (z * P) 10 + 5)%N as Hm.
  { unfold round_half_even. clear Hz Hl.
    generalize dependent ((z * P) `div` 10)%N. intros d Hdm.
    generalize dependent ((z * P) `mod` 10)%N. intros r Hdm Hr.
    generalize dependent (z * P)%N. intros zP ->.
    repeat match goal with
           | |- context [N.ltb ?a ?b] => destruct (N.ltb_spec a b)
           | |- context [N.even ?a] => destruct (N.even a)
           end; lia. }
  generalize dependent (round_half_even (z * P) 10). intros m Hm.
  clear Hdm Hr.
  pose proof (N.div_mod (m + P - 1) P ltac:(lia)) as Hc.
  pose proof (N.mod_lt (m + P - 1) P ltac:(lia)) as Hc'.
  generalize dependent ((m + P - 1) `div` P)%N. intros c Hc.
  generalize dependent ((m + P - 1) `mod` P)%N. intros r Hc Hr.
  nia.
Qed.

(** Beyond 2^53 the rounding shows: in the numeral read, in the number
    printed (zero-padded to 21 digits, in exponent form from 1e21, whose
    leading digit is all [parseInt] then reads) and in the quotient. *)
Lemma rounding_examples :
  parseInt (VStr "9007199254740993") = Num 9007199254740992
  ∧ to_string (VNum (2 ^ 64)) = "18446744073709552000"
  ∧ to_string (VNum (10 ^ 21)) = "1e+21"
  ∧ parseInt (VNum (10 ^ 21)) = Num 1
  ∧ ceil_div10 (Num (2 ^ 60)) = Num 115292150460684704.
Proof. by vm_compute. Qed.

Lemma ceil_div10_exact (n : N) :
  (n ≤ 2 ^ 53)%N →
  ∃ totalPages,
    ceil_div10 (Num (Z.of_N n)) = Num totalPages
    ∧ is_ceil_of_tenth (Z.of_N n) totalPages.
Proof.
  intros Hn. exists (Z.of_N (ceil_tenth n)). split; [|by apply ceil_tenth_exact].
  unfold ceil_div10. destruct (Z.ltb_spec (Z.of_N n) 0) as [|_]; [lia|].
  by rewrite N2Z.id.
Qed.

(** ** The loops of [GET /api/popular] *)

Lemma makeOMDBRequest_run E url w :
  makeOMDBRequest E url w
  = (after_attempt E url w,
     match provider E (calls w) url with
     | Reply d => Ok d
     | Fail _ => Throw FetchError
     end).
Proof.
  unfold after_attempt. destruct (provider E (calls w) url) eqn:Hp.
  - by apply makeOMDBRequest_reply.
  - by apply makeOMDBRequest_fail.
Qed.

Lemma calls_after_attempt E url w :
  calls (after_attempt E url w) = calls w ++ [url].
Proof. unfold after_attempt. by destruct (provider E (calls w) url). Qed.

(** The inner loop pushes one entry per hit and never throws. *)
Lemma for_movies_run E movies popularMovies w :
  for_movies E movies popularMovies w
  = (after_each E movies w,
     Ok (popularMovies ++ entries E (calls w) movies)).
Proof.
  revert popularMovies w.
  induction movies as [|movie rest IH]; intros popularMovies w.
  - unfold entries. simpl. by rewrite app_nil_r.
  - cbn [for_movies after_each].
    set (url := detailUrl E (imdbID movie)).
    erewrite bind_run.
    2:{ unfold try_catch, mbind, M_bind. rewrite makeOMDBRequest_run.
        instantiate (1 := popularMovies
                          ++ [enriched movie (provider E (calls w) url)]).
        instantiate (1 := after_attempt E url w).
        by destruct (provider E (calls w) url). }
    rewrite IH, calls_after_attempt, <-app_assoc. done.
Qed.

Lemma for_searches_run E searches popularMovies w :
  for_searches E searches popularMovies w
  = (after_seeds E searches w,
     Ok (popularMovies ++ accumulate E searches w)).
Proof.
  revert popularMovies w.
  induction searches as [|search rest IH]; intros popularMovies w.
  - simpl. by rewrite app_nil_r.
  - cbn [for_searches after_seeds accumulate].
    set (url := searchUrl E search 1).
    erewrite bind_run.
    2:{ unfold try_catch, mbind, M_bind. rewrite makeOMDBRequest_run.
        instantiate (1 := popularMovies
                          ++ entries E (calls w ++ [url])
                                     (seed_hits E (calls w) search)).
        instantiate (1 := after_seed E search w).
        unfold after_seed, seed_hits, after_attempt. fold url.
        destruct (provider E (calls w) url) as [d|cause] eqn:Hp.
        - destruct (strict_eq _ _).
          + destruct (Search d) as [hits|].
            * by rewrite for_movies_run.
            * unfold entries. simpl. by rewrite app_nil_r.
          + unfold entries. simpl. by rewrite app_nil_r.
        - unfold entries. simpl. by rewrite app_nil_r. }
    by rewrite IH, <-app_assoc.
Qed.

(** ** Deduplication *)

Lemma findIndex_from_none {A} (p : A → bool) l l' i :
  Forall (λ x, p x = false) l →
  findIndex_from p (l ++ l') i = findIndex_from p l' (i + Z.of_nat (length l)).
Proof.
  intros Hl. revert i. induction Hl as [|x l Hx Hl IH]; intros i; simpl.
  - f_equal. lia.
  - rewrite Hx, IH. f_equal. rewrite Nat2Z.inj_succ. lia.
Qed.

Lemma findIndex_from_some {A} (p : A → bool) l l' i :
  Exists (λ x, p x = true) l →
  i ≤ findIndex_from p (l ++ l') i < i + Z.of_nat (length l).
Proof.
  intros Hl. revert i. induction l as [|x l IH]; intros i.
  - by apply Exists_nil in Hl.
  - cbn [app findIndex_from length]. rewrite Nat2Z.inj_succ.
    destruct (p x) eqn:Hx; [lia|].
    apply Exists_cons in Hl as [Hl|Hl]; [congruence|].
    specialize (IH Hl (i + 1)). lia.
Qed.

(** An element is at its own first index exactly when no earlier element
    has its id. *)
Lemma first_index_here (pre : list obj) movie rest :
  (Z.of_nat (length pre) =? findIndex (λ m, strict_eq (imdbID m) (imdbID movie))
                           (pre ++ movie :: rest))
  = negb (bool_decide (imdbID movie ∈ imdbID <$> pre)).
Proof.
  unfold findIndex.
  destruct (decide (imdbID movie ∈ imdbID <$> pre)) as [Hin|Hnin].
  - rewrite bool_decide_eq_true_2 by done. simpl. apply Z.eqb_neq.
    pose proof (findIndex_from_some
                  (λ m, strict_eq (imdbID m) (imdbID movie))
                  pre (movie :: rest) 0) as Hlt.
    cut (0 ≤ findIndex_from (λ m, strict_eq (imdbID m) (imdbID movie))
               (pre ++ movie :: rest) 0 < 0 + Z.of_nat (length pre)); [lia|].
    apply Hlt. apply Exists_exists.
    apply list_elem_of_fmap in Hin as (m & Hid & Hm).
    exists m. split; [done|]. unfold strict_eq.
    by rewrite bool_decide_eq_true_2.
  - rewrite bool_decide_eq_false_2 by done. simpl. apply Z.eqb_eq.
    rewrite findIndex_from_none.
    + simpl. unfold strict_eq. rewrite bool_decide_eq_true_2 by done. lia.
    + apply Forall_forall. intros m Hm. unfold strict_eq.
      apply bool_decide_eq_false_2. intros Hid. apply Hnin.
      apply list_elem_of_fmap. eauto.
Qed.

Lemma filter_first_index (pre suf : list obj) (seen : list value) :
  (∀ v, v ∈ seen ↔ v ∈ imdbID <$> pre) →
  filter_from
    (λ movie index,
       index =? findIndex (λ m, strict_eq (imdbID m) (imdbID movie))
                          (pre ++ suf))
    suf (Z.of_nat (length pre))
  = dedup_by_id seen suf.
Proof.
  revert pre seen. induction suf as [|movie rest IH]; intros pre seen Hseen.
  - done.
  - cbn [filter_from dedup_by_id]. rewrite first_index_here.
    assert (bool_decide (imdbID movie ∈ imdbID <$> pre)
            = bool_decide (imdbID movie ∈ seen)) as ->.
    { apply bool_decide_ext. by rewrite Hseen. }
    assert (pre ++ movie :: rest = (pre ++ [movie]) ++ rest) as Happ
      by by rewrite <-app_assoc.
    assert (Z.of_nat (length pre) + 1 = Z.of_nat (length (pre ++ [movie])))
      as Hlen by (rewrite length_app; simpl; lia).
    rewrite Happ, Hlen.
    destruct (bool_decide (imdbID movie ∈ seen)) eqn:Hd; simpl.
    + apply IH. intros v. rewrite fmap_app, elem_of_app, <-Hseen. simpl.
      rewrite list_elem_of_singleton. apply bool_decide_eq_true_1 in Hd.
      split; [tauto|]. intros [?| ->]; done.
    + f_equal. apply IH. intros v. rewrite fmap_app, elem_of_app, <-Hseen.
      simpl. rewrite elem_of_cons, list_elem_of_singleton. tauto.
Qed.

(** The filter of the handler is deduplication by id, first occurrence
    kept. *)
Lemma uniqueMovies_dedup popularMovies :
  uniqueMovies popularMovies = take 25 (dedup_by_id [] popularMovies).
Proof.
  unfold uniqueMovies, filter_indexed. f_equal.
  apply (filter_first_index [] popularMovies []). intros v. simpl.
  by rewrite !elem_of_nil.
Qed.

Lemma dedup_by_id_fresh seen movies movie :
  movie ∈ dedup_by_id seen movies → imdbID movie ∉ seen.
Proof.
  revert seen. induction movies as [|m rest IH]; intros seen; simpl.
  - by rewrite elem_of_nil.
  - destruct (decide (imdbID m ∈ seen)) as [Hin|Hnin].
    + rewrite bool_decide_eq_true_2 by done. apply IH.
    + rewrite bool_decide_eq_false_2 by done.
      rewrite elem_of_cons. intros [->|Hm]; [done|].
      apply IH in Hm. rewrite elem_of_cons in Hm. tauto.
Qed.

Lemma dedup_by_id_NoDup seen movies :
  NoDup (imdbID <$> dedup_by_id seen movies).
Proof.
  revert seen. induction movies as [|m rest IH]; intros seen; simpl.
  - constructor.
  - destruct (bool_decide (imdbID m ∈ seen)); [apply IH|].
    simpl. constructor; [|apply IH].
    intros Hin. apply list_elem_of_fmap in Hin as (m' & Hid & Hm').
    apply dedup_by_id_fresh in Hm'. apply Hm'. rewrite <-Hid. by left.
Qed.

(** ** Validation at the boundary *)

(** Past validation the handler always answers, with 200 or 500. *)
Lemma search_answers E req w query page :
  validate (req_query req) = inr (query, page) →
  ∃ w' r, search E req w = (w', Ok r) ∧ (status r = 200 ∨ status r = 500).
Proof.
  intros Hv.
  destruct (lookup_live (cache w) (now w) (searchKey query page))
    as [cached|] eqn:Hc.
  { do 2 eexists. split; [by eapply search_cached|]. by left. }
  destruct (provider E (calls w) (searchUrl E query page)) as [d|cause] eqn:Hp.
  2:{ do 2 eexists. split; [by eapply search_unavailable|]. by right. }
  destruct (decide (get "Response" (fields d) = VStr "True")) as [Hr|Hr].
  2:{ do 2 eexists. split; [by eapply search_no_match|]. by left. }
  destruct (Search d) as [hits|] eqn:Hs.
  - do 2 eexists. split; [by eapply search_matched|]. by left.
  - do 2 eexists. split; [by eapply search_malformed|]. by right.
Qed.

Lemma search_accepts E req w query page :
  validate (req_query req) = inr (query, page) → accepted E req w.
Proof.
  intros Hv. destruct (search_answers E req w query page Hv)
    as (w' & r & Hrun & Hstatus).
  exists w', r. split; [done|]. destruct Hstatus as [-> | ->]; done.
Qed.

(** C5. A search request with an empty query, a query of more than 100
    characters, or a page below 1 or above 100 is answered with a
    validation error while the world is untouched (no cache read, no
    provider call); a query of 1 to 100 characters with a page from 1 to
    100 passes validation, and so does one with no page, as page 1. *)
Theorem search_validates_first E req w :
  let q := req_query req in
  (q_query q = Some EmptyString → rejected E req w)
  ∧ (∀ s, q_query q = Some s → (100 < String.length s)%nat →
          rejected E req w)
  ∧ (∀ n, q_page q = Some (PageInt n) → n < 1 ∨ 100 < n → rejected E req w)
  ∧ (∀ s n, q_query q = Some s → s ≠ EmptyString →
            (String.length s ≤ 100)%nat →
            q_page q = Some (PageInt n) → 1 ≤ n ≤ 100 →
            validate q = inr (s, n) ∧ accepted E req w)
  ∧ (∀ s, q_query q = Some s → s ≠ EmptyString →
          (String.length s ≤ 100)%nat → q_page q = None →
          validate q = inr (s, 1) ∧ accepted E req w).
Proof.
  intros q.
  assert (∀ error, validate q = inl error → rejected E req w) as Hrej.
  { intros error Hv. exists error. by apply search_rejected. }
  assert (∀ s n, validate q = inr (s, n) →
                 validate q = inr (s, n) ∧ accepted E req w) as Hacc.
  { intros s n Hv. split; [done|]. by eapply search_accepts. }
  split; [|split; [|split; [|split]]].
  - intros Hq. apply (Hrej string_empty_query). unfold validate. by rewrite Hq.
  - intros s Hq Hlen. destruct (String.eqb_spec s EmptyString) as [->|Hne].
    + simpl in Hlen. lia.
    + apply (Hrej string_max_query). unfold validate. rewrite Hq.
      rewrite (proj2 (String.eqb_neq s EmptyString)) by done.
      by rewrite (proj2 (Nat.ltb_lt _ _)).
  - intros n Hp Hn. unfold validate in Hrej.
    destruct (q_query q) as [s|]; [|by eapply Hrej].
    destruct (String.eqb s EmptyString); [by eapply Hrej|].
    destruct (100 <? String.length s)%nat; [by eapply Hrej|].
    rewrite Hp in Hrej.
    destruct (Z.ltb_spec n 1); [by eapply Hrej|].
    destruct (Z.ltb_spec 100 n); [by eapply Hrej|]. lia.
  - intros s n Hq Hne Hlen Hp Hn. apply Hacc. unfold validate.
    rewrite Hq, Hp, (proj2 (String.eqb_neq s EmptyString)) by done.
    rewrite (proj2 (Nat.ltb_ge _ _)) by done.
    rewrite (proj2 (Z.ltb_ge _ _)) by lia.
    by rewrite (proj2 (Z.ltb_ge _ _)) by lia.
  - intros s Hq Hne Hlen Hp. apply Hacc. unfold validate.
    rewrite Hq, Hp, (proj2 (String.eqb_neq s EmptyString)) by done.
    by rewrite (proj2 (Nat.ltb_ge _ _)) by done.
Qed.

Lemma search_validates_first_witness :
  rejected ex_env (ex_search (Some EmptyString) None) ex_world
  ∧ rejected ex_env (ex_search (Some "batman") (Some (PageInt 0))) ex_world
  ∧ rejected ex_env (ex_search (Some "batman") (Some (PageInt 101))) ex_world
  ∧ accepted ex_env (ex_search (Some "batman") (Some (PageInt 1))) ex_world
  ∧ accepted ex_env (ex_search (Some "batman") None) ex_world.
Proof.
  split; [|split; [|split; [|split]]].
  - by apply (search_validates_first ex_env (ex_search (Some EmptyString) None)
                ex_world).
  - apply (search_validates_first ex_env
             (ex_search (Some "batman") (Some (PageInt 0))) ex_world)
      with (n := 0); [reflexivity|lia].
  - apply (search_validates_first ex_env
             (ex_search (Some "batman") (Some (PageInt 101))) ex_world)
      with (n := 101); [reflexivity|lia].
  - apply (search_validates_first ex_env
             (ex_search (Some "batman") (Some (PageInt 1))) ex_world)
      with (s := "batman") (n := 1);
      [reflexivity|discriminate|simpl; lia|reflexivity|lia].
  - apply (search_validates_first ex_env (ex_search (Some "batman") None)
             ex_world) with (s := "batman");
      [reflexivity|discriminate|simpl; lia|reflexivity].
Defined.

(** ** Serving from the cache *)

Lemma lookup_live_Some c t key b :
  lookup_live c t key = Some b ↔
  ∃ e, data c !! key = Some e ∧ e_value e = b ∧ t ≤ e_expires e.
Proof.
  unfold lookup_live. destruct (data c !! key) as [e|]; split.
  - destruct (decide (e_expires e < t)).
    + by rewrite bool_decide_eq_true_2.
    + rewrite bool_decide_eq_false_2 by done. intros [= <-].
      exists e. split; [done|]. split; [done|lia].
  - intros (e' & [= <-] & <- & Ht). by rewrite bool_decide_eq_false_2 by lia.
  - done.
  - by intros (e' & ? & _).
Qed.

(** A stored entry that has not expired is served unchanged: no request
    goes out and nothing is stored; only the hit is counted. *)
Lemma search_served E req w query page e :
  validate (req_query req) = inr (query, page) →
  data (cache w) !! searchKey query page = Some e →
  now w ≤ e_expires e →
  search E req w
  = (after_lookup (searchKey query page) w, Ok (Response 200 (e_value e))).
Proof.
  intros Hv He Ht. apply search_cached; [done|].
  apply lookup_live_Some. eauto.
Qed.

(** What a read drops: nothing when it serves, the entry under its key
    (if there is one, it has expired) when it misses. *)
Lemma expire_live key t c cached :
  lookup_live c t key = Some cached → expire key t c = c.
Proof.
  unfold lookup_live, expire. destruct (data c !! key) as [e|]; [|done].
  by destruct (bool_decide (e_expires e < t)).
Qed.

Lemma data_expire_miss key t c :
  lookup_live c t key = None → data (expire key t c) = delete key (data c).
Proof.
  unfold lookup_live, expire. destruct (data c !! key) as [e|] eqn:He.
  - by destruct (bool_decide (e_expires e < t)).
  - intros _. symmetry. by apply delete_id.
Qed.

(** An expired entry is not served later either. *)
Lemma lookup_live_delete_miss key t c t' k :
  lookup_live c t key = None → t ≤ t' →
  lookup_live (Cache (delete key (data c)) (hits c) (misses c)) t' k
  = lookup_live c t' k.
Proof.
  unfold lookup_live. intros Hmiss Ht. cbn [data].
  destruct (decide (k = key)) as [->|Hk].
  - rewrite lookup_delete_eq. destruct (data c !! key) as [e|]; [|done].
    destruct (bool_decide_reflect (e_expires e < t)) as [Hold|]; [|done].
    by rewrite bool_decide_eq_true_2 by lia.
  - by rewrite lookup_delete_ne.
Qed.

Lemma after_lookup_frame key w :
  data (cache (after_lookup key w)) = data (expire key (now w) (cache w))
  ∧ now (after_lookup key w) = now w
  ∧ calls (after_lookup key w) = calls w
  ∧ console (after_lookup key w) = console w
  ∧ history (after_lookup key w) = history w.
Proof.
  unfold after_lookup, count_read.
  by destruct (lookup_live (cache w) (now w) key).
Qed.

Lemma data_after_lookup_live key w cached :
  lookup_live (cache w) (now w) key = Some cached →
  data (cache (after_lookup key w)) = data (cache w).
Proof.
  intros Hc. destruct (after_lookup_frame key w) as (-> & _).
  by rewrite (expire_live _ _ _ _ Hc).
Qed.

Lemma data_after_lookup_entry key w e :
  data (cache w) !! key = Some e → now w ≤ e_expires e →
  data (cache (after_lookup key w)) = data (cache w).
Proof.
  intros He Ht. apply (data_after_lookup_live key w (e_value e)).
  apply lookup_live_Some. eauto.
Qed.

Lemma data_after_lookup_miss key w :
  lookup_live (cache w) (now w) key = None →
  data (cache (after_lookup key w)) = delete key (data (cache w)).
Proof.
  intros Hc. destruct (after_lookup_frame key w) as (-> & _).
  by apply data_expire_miss.
Qed.

(** After a miss and the primary request the cache has lost the expired
    entry under the key, if there was one, and nothing else. *)
Lemma data_after_primary E url key w :
  lookup_live (cache w) (now w) key = None →
  data (cache (after_request E url (after_lookup key w)))
  = delete key (data (cache w)).
Proof. intros Hc. by rewrite <- (data_after_lookup_miss key w Hc). Qed.

Lemma console_after_primary E url key w :
  console (after_request E url (after_lookup key w)) = console w.
Proof.
  unfold after_request, elapse, issue, after_lookup, count_read.
  by destruct (lookup_live (cache w) (now w) key).
Qed.

(** A cache that differs from the one before a miss by the deletion under
    the missed key: no entry under that key, the entries it had when there
    was none, and the same answers from then on. *)
Lemma miss_leaves_cache key w w1 :
  lookup_live (cache w) (now w) key = None →
  data (cache w1) = delete key (data (cache w)) →
  data (cache w1) !! key = None
  ∧ (data (cache w) !! key = None → data (cache w1) = data (cache w))
  ∧ (∀ k t, now w ≤ t →
       lookup_live (cache w1) t k = lookup_live (cache w) t k).
Proof.
  intros Hc Hdata. split; [|split].
  - rewrite Hdata. apply lookup_delete_eq.
  - intros Hnone. rewrite Hdata. by apply delete_id.
  - intros k t Ht.
    rewrite <- (lookup_live_delete_miss key (now w) (cache w) t k Hc Ht).
    unfold lookup_live. by rewrite Hdata.
Qed.

Lemma calls_after_primary E url key w :
  calls (after_request E url (after_lookup key w)) = calls w ++ [url].
Proof.
  unfold after_request, elapse, issue, after_lookup, count_read.
  by destruct (lookup_live (cache w) (now w) key).
Qed.

Lemma history_after_primary E url key w :
  history (after_request E url (after_lookup key w)) = history w
  ∧ isMongoConnected (after_request E url (after_lookup key w))
    = isMongoConnected w.
Proof.
  unfold after_request, elapse, issue, after_lookup, count_read.
  by destruct (lookup_live (cache w) (now w) key).
Qed.

(** A later call, by any environment, while the entry is still live. *)
Lemma search_served_later E' req query page w1 e d :
  validate (req_query req) = inr (query, page) →
  data (cache w1) !! searchKey query page = Some e →
  now w1 + d ≤ e_expires e →
  ∃ w2, search E' req (elapse d w1) = (w2, Ok (Response 200 (e_value e)))
        ∧ calls w2 = calls w1
        ∧ data (cache w2) = data (cache w1).
Proof.
  intros Hv He Hd. eexists. split; [by apply search_served|].
  split.
  - by destruct (after_lookup_frame (searchKey query page) (elapse d w1))
      as (_ & _ & -> & _).
  - by apply (data_after_lookup_entry _ (elapse d w1) e).
Qed.

Lemma stored_entry key v w :
  data (cache (after_store key v w)) !! key
  = Some (Entry v (now w + stdTTL * 1000)).
Proof. unfold after_store, store. simpl. apply lookup_insert_eq. Qed.

Lemma stored_entry_now key v w :
  data (cache (after_store key v w)) !! key
  = Some (Entry v (now (after_store key v w) + stdTTL * 1000)).
Proof. exact (stored_entry key v w). Qed.

(** ** Two calls in a row *)

(** C1, as stated, fails: when the provider is down for the first call,
    the call answers 500 and stores nothing, so the second call goes to the
    provider and answers differently. *)
Lemma search_twice_differs :
  validate (req_query (ex_search (Some "batman") None)) = inr ("batman", 1)
  ∧ ∃ w1 r1 w2 r2,
      search ex_flaky (ex_search (Some "batman") None) ex_world = (w1, Ok r1)
      ∧ search ex_flaky (ex_search (Some "batman") None) w1 = (w2, Ok r2)
      ∧ r1 ≠ r2
      ∧ data (cache w1) !! searchKey "batman" 1 = None
      ∧ calls w2 ≠ calls w1.
Proof.
  split; [reflexivity|].
  pose (req := ex_search (Some "batman") None).
  assert (validate (req_query req) = inr ("batman", 1)) as Hv by reflexivity.
  eexists _, _, _, _. split.
  { by apply (search_unavailable ex_flaky req ex_world "batman" 1
                "connect ECONNREFUSED"). }
  split.
  { by apply (search_matched ex_flaky req _ "batman" 1 ex_page
                [ex_hit "tt1"; ex_hit "tt2"; ex_hit "tt3"]). }
  split; [discriminate|]. split; [done|]. simpl. discriminate.
Qed.

(** C1, amended. If the first of two search calls with the same valid
    query and page does not end in the 500 answer, its answer is in the
    cache under [search:{query}:{page}] when it returns (stored by this
    call with the full TTL when it was a miss), and a second call made
    before that entry expires returns the same answer, issues no provider
    request and stores nothing. *)
Theorem search_repeat_served E E' req w query page w1 r1 :
  validate (req_query req) = inr (query, page) →
  search E req w = (w1, Ok r1) →
  status r1 ≠ 500 →
  ∃ e, data (cache w1) !! searchKey query page = Some e
       ∧ r1 = Response 200 (e_value e)
       ∧ (lookup_live (cache w) (now w) (searchKey query page) = None →
          e_expires e = now w1 + stdTTL * 1000)
       ∧ ∀ d, 0 ≤ d → now w1 + d ≤ e_expires e →
           ∃ w2, search E' req (elapse d w1) = (w2, Ok r1)
                 ∧ calls w2 = calls w1
                 ∧ data (cache w2) = data (cache w1).
Proof.
  intros Hv Hrun Hstatus.
  assert (∀ e, data (cache w1) !! searchKey query page = Some e →
               r1 = Response 200 (e_value e) →
               ∀ d, 0 ≤ d → now w1 + d ≤ e_expires e →
                 ∃ w2, search E' req (elapse d w1) = (w2, Ok r1)
                       ∧ calls w2 = calls w1
                       ∧ data (cache w2) = data (cache w1)) as Hlater.
  { intros e He -> d _ Hd. by eapply search_served_later. }
  destruct (lookup_live (cache w) (now w) (searchKey query page))
    as [cached|] eqn:Hc.
  { rewrite (search_cached E req w query page cached Hv Hc) in Hrun.
    injection Hrun as <- <-.
    pose proof (data_after_lookup_live _ _ _ Hc) as Hdata.
    apply lookup_live_Some in Hc as (e & He & <- & Ht).
    exists e. split; [by rewrite Hdata|]. split; [done|].
    split; [done|]. apply (Hlater e); [by rewrite Hdata|done]. }
  destruct (provider E (calls w) (searchUrl E query page)) as [d|cause] eqn:Hp.
  2:{ rewrite (search_unavailable E req w query page cause Hv Hc Hp) in Hrun.
      injection Hrun as <- <-. done. }
  destruct (decide (get "Response" (fields d) = VStr "True")) as [Hr|Hr].
  2:{ rewrite (search_no_match E req w query page d Hv Hc Hp Hr) in Hrun.
      injection Hrun as <- <-.
      eexists. split; [apply stored_entry|]. split; [done|].
      split; [done|]. apply (Hlater _ (stored_entry _ _ _)). done. }
  destruct (Search d) as [hits|] eqn:Hs.
  - rewrite (search_matched E req w query page d hits Hv Hc Hp Hr Hs) in Hrun.
    injection Hrun as <- <-.
    eexists. split; [apply stored_entry|]. split; [done|].
    split; [done|]. apply (Hlater _ (stored_entry _ _ _)). done.
  - rewrite (search_malformed E req w query page d Hv Hc Hp Hr Hs) in Hrun.
    injection Hrun as <- <-. done.
Qed.

Lemma search_repeat_served_witness :
  ∃ w1 r1 e,
    search ex_env (ex_search (Some "batman") None) ex_world = (w1, Ok r1)
    ∧ data (cache w1) !! searchKey "batman" 1 = Some e
    ∧ r1 = Response 200 (e_value e)
    ∧ ∀ d, 0 ≤ d → now w1 + d ≤ e_expires e →
        ∃ w2, search ex_flaky (ex_search (Some "batman") None) (elapse d w1)
              = (w2, Ok r1)
              ∧ calls w2 = calls w1
              ∧ data (cache w2) = data (cache w1).
Proof.
  pose (req := ex_search (Some "batman") None).
  assert (Hrun := search_matched ex_env req ex_world "batman" 1 ex_page _
                    eq_refl eq_refl eq_refl eq_refl eq_refl).
  cbv zeta in Hrun.
  destruct (search_repeat_served ex_env ex_flaky req ex_world "batman" 1 _ _
              eq_refl Hrun) as (e & He & Hr & _ & Hlater); [simpl; lia|].
  eexists _, _, e. split; [exact Hrun|]. split; [exact He|].
  split; [exact Hr|exact Hlater].
Defined.

(** ** The provider reports no match *)

(** C7. On a cache miss, when the provider reports no match, the answer
    carries success=false with the provider's error text, or with
    "No movies found" when there is none; the answer is stored under
    [search:{query}:{page}] with the full TTL, and calls made within the TTL
    get the stored failure without a provider request. *)
Theorem search_no_match_is_cached E E' req w query page d :
  validate (req_query req) = inr (query, page) →
  lookup_live (cache w) (now w) (searchKey query page) = None →
  provider E (calls w) (searchUrl E query page) = Reply d →
  get "Response" (fields d) ≠ VStr "True" →
  ∃ w1 error,
    search E req w = (w1, Ok (Response 200 (Failure error)))
    ∧ error = (if truthy (get "Error" (fields d)) then get "Error" (fields d)
               else VStr "No movies found")
    ∧ data (cache w1) !! searchKey query page
      = Some (Entry (Failure error) (now w1 + stdTTL * 1000))
    ∧ ∀ t, 0 ≤ t ≤ stdTTL * 1000 →
        ∃ w2, search E' req (elapse t w1)
              = (w2, Ok (Response 200 (Failure error)))
              ∧ calls w2 = calls w1.
Proof.
  intros Hv Hc Hp Hr.
  pose proof (search_no_match E req w query page d Hv Hc Hp Hr) as Hrun.
  cbv zeta in Hrun. eexists _, _. split; [exact Hrun|]. split; [done|].
  split; [apply stored_entry_now|].
  intros t Ht.
  edestruct (search_served_later E' req query page) as (w2 & Hagain & Hcalls & _);
    [exact Hv|apply stored_entry| |].
  2:{ exists w2. split; [exact Hagain|exact Hcalls]. }
  simpl. lia.
Qed.

Lemma search_no_match_is_cached_witness :
  ∃ w1,
    search ex_env (ex_search (Some "zzzz") None) ex_world
    = (w1, Ok (Response 200 (Failure (VStr "Movie not found!"))))
    ∧ data (cache w1) !! searchKey "zzzz" 1
      = Some (Entry (Failure (VStr "Movie not found!"))
                    (now w1 + stdTTL * 1000))
    ∧ ∃ w2, search ex_flaky (ex_search (Some "zzzz") None)
                   (elapse 3600000 w1)
            = (w2, Ok (Response 200 (Failure (VStr "Movie not found!"))))
            ∧ calls w2 = calls w1.
Proof.
  destruct (search_no_match_is_cached ex_env ex_flaky
              (ex_search (Some "zzzz") None) ex_world "zzzz" 1 ex_nothing)
    as (w1 & error & Hrun & -> & Hstored & Hlater);
    [reflexivity|reflexivity|reflexivity|discriminate|].
  exists w1. split; [exact Hrun|]. split; [exact Hstored|].
  apply Hlater. unfold stdTTL. lia.
Defined.

(** ** The provider is unavailable *)

(** C8. On a cache miss, when the primary provider request fails, the
    answer is 500 with the fixed message "Internal server error" and the
    cause goes to the console only.  Nothing is stored: when the call
    returns the cache holds no entry under the key, every other entry is
    the one it held, and at every later time the cache serves under every
    key what it would have served without the call.  The cache differs in
    one way only, and by the read, not by the error path: an entry under
    the key that had expired is dropped. *)
Theorem search_unavailable_not_cached E req w query page cause :
  validate (req_query req) = inr (query, page) →
  lookup_live (cache w) (now w) (searchKey query page) = None →
  provider E (calls w) (searchUrl E query page) = Fail cause →
  ∃ w1,
    search E req w
    = (w1, Ok (Response 500 (Failure (VStr "Internal server error"))))
    ∧ data (cache w1) = delete (searchKey query page) (data (cache w))
    ∧ data (cache w1) !! searchKey query page = None
    ∧ (data (cache w) !! searchKey query page = None →
       data (cache w1) = data (cache w))
    ∧ (∀ key t, now w ≤ t →
         lookup_live (cache w1) t key = lookup_live (cache w) t key)
    ∧ lookup_live (cache w1) (now w1) (searchKey query page) = None
    ∧ console w1
      = console w ++ [OMDB_API_Error cause; Search_error FetchError]
    ∧ history w1 = history w.
Proof.
  intros Hv Hc Hp. eexists. split; [by apply search_unavailable|].
  assert (data (cache (log_to_console
                         [OMDB_API_Error cause; Search_error FetchError]
                         (after_request E (searchUrl E query page)
                            (after_lookup (searchKey query page) w))))
          = delete (searchKey query page) (data (cache w))) as Hdata.
  { by apply data_after_primary. }
  destruct (miss_leaves_cache _ _ _ Hc Hdata) as (Hnone & Hsame & Hserved).
  split; [exact Hdata|]. split; [exact Hnone|]. split; [exact Hsame|].
  split; [exact Hserved|].
  split; [unfold lookup_live; by rewrite Hnone|].
  split.
  - unfold log_to_console. cbn [console].
    by rewrite console_after_primary.
  - apply (history_after_primary E (searchUrl E query page)
             (searchKey query page) w).
Qed.

Lemma search_unavailable_not_cached_witness :
  data (cache ex_stale) !! searchKey "batman" 1
  = Some (Entry (Failure (VStr "Old answer")) 500)
  ∧ ∃ w1,
      search ex_flaky (ex_search (Some "batman") None) ex_stale
      = (w1, Ok (Response 500 (Failure (VStr "Internal server error"))))
      ∧ data (cache w1) !! searchKey "batman" 1 = None
      ∧ data (cache w1) !! popularKey = data (cache ex_stale) !! popularKey
      ∧ lookup_live (cache w1) 1500 popularKey = Some (PopularList [])
      ∧ console w1
        = [OMDB_API_Error "connect ECONNREFUSED"; Search_error FetchError]
      ∧ history w1 = [].
Proof.
  split; [reflexivity|].
  destruct (search_unavailable_not_cached ex_flaky
              (ex_search (Some "batman") None) ex_stale "batman" 1
              "connect ECONNREFUSED")
    as (w1 & Hrun & Hdata & Hnone & _ & Hserved & _ & Hconsole & Hhistory);
    [reflexivity|reflexivity|reflexivity|].
  exists w1. split; [exact Hrun|]. split; [exact Hnone|].
  split; [by rewrite Hdata|].
  split; [rewrite Hserved; by vm_compute|].
  split; [exact Hconsole|exact Hhistory].
Defined.

(** ** The entries of a matched page *)

Lemma lookup_pending_of E log movies i movie :
  movies !! i = Some movie →
  let log_i := log ++ detailUrls E (take i movies) in
  let url := detailUrl E (imdbID movie) in
  pending_of E log movies !! i
  = Some (latency E log_i url, provider E log_i url).
Proof.
  revert log i. induction movies as [|m rest IH]; intros log i Hi; [done|].
  destruct i as [|i]; simpl in *.
  - injection Hi as ->. by rewrite app_nil_r.
  - rewrite (IH _ _ Hi). simpl. by rewrite <-app_assoc.
Qed.

Lemma length_entries E log hits : length (entries E log hits) = length hits.
Proof.
  unfold entries.
  rewrite length_zip_with, length_fmap, length_pending_of. lia.
Qed.

Lemma lookup_entries E log hits i hit :
  hits !! i = Some hit →
  entries E log hits !! i
  = Some (enriched hit (provider E (log ++ detailUrls E (take i hits))
                                 (detailUrl E (imdbID hit)))).
Proof.
  intros Hi. unfold entries.
  rewrite lookup_zip_with, Hi, list_lookup_fmap. simpl.
  by rewrite (lookup_pending_of E log hits i hit Hi).
Qed.

Lemma imdbID_zip_enriched hits (outs : list outcome) :
  length outs = length hits →
  imdbID <$> zip_with enriched hits outs = imdbID <$> hits.
Proof.
  revert outs. induction hits as [|hit hits IH]; intros [|o outs] Hlen;
    simpl in *; try done.
  rewrite imdbID_enriched. f_equal. apply IH. lia.
Qed.

(** The ids of the entries are the ids of the hits, in the same order. *)
Lemma imdbID_entries E log hits :
  imdbID <$> entries E log hits = imdbID <$> hits.
Proof.
  apply imdbID_zip_enriched. by rewrite length_fmap, length_pending_of.
Qed.

(** The outcomes do not depend on the latencies, nor on the database. *)
Lemma pending_of_with_latency lat E log movies :
  (pending_of (with_latency lat E) log movies).*2
  = (pending_of E log movies).*2.
Proof.
  revert log. induction movies as [|m rest IH]; intros log; [done|].
  cbn. f_equal. apply IH.
Qed.

Lemma pending_of_with_db accepts E log movies :
  pending_of (with_db accepts E) log movies = pending_of E log movies.
Proof.
  revert log. induction movies as [|m rest IH]; intros log; [done|].
  cbn. f_equal. apply IH.
Qed.

(** ** Graceful degradation *)

(** C2. In a matched page, a hit whose detail request fails is still in
    the batch, at its place, as the hit itself: its summary fields are
    intact, and it has no enrichment field when the hit had none.  The
    batch has as many entries as the provider sent hits, and the answer is
    the 200 page: the failure is not passed on. *)
Theorem enrichment_failure_keeps_hit E req w query page d hits :
  validate (req_query req) = inr (query, page) →
  lookup_live (cache w) (now w) (searchKey query page) = None →
  provider E (calls w) (searchUrl E query page) = Reply d →
  get "Response" (fields d) = VStr "True" →
  Search d = Some hits →
  ∃ w1 movies totalResults totalPages,
    search E req w
    = (w1, Ok (Response 200 (SearchPage movies totalResults page totalPages)))
    ∧ length movies = length hits
    ∧ ∀ i hit cause,
        hits !! i = Some hit →
        provider E (calls w ++ searchUrl E query page
                            :: detailUrls E (take i hits))
                 (detailUrl E (imdbID hit)) = Fail cause →
        movies !! i = Some hit
        ∧ (is_summary hit →
           ∃ entry, movies !! i = Some entry
                    ∧ ∀ k, k ∈ enrichment_fields → has k entry = false).
Proof.
  intros Hv Hc Hp Hr Hs.
  pose proof (search_matched E req w query page d hits Hv Hc Hp Hr Hs) as Hrun.
  cbv zeta in Hrun. eexists _, _, _, _. split; [exact Hrun|].
  split; [apply length_entries|].
  intros i hit cause Hi Hfail.
  assert (entries E (calls (after_request E (searchUrl E query page)
                              (after_lookup (searchKey query page) w)))
                  hits !! i = Some hit) as Hentry.
  { rewrite (lookup_entries _ _ _ _ _ Hi), calls_after_primary.
    rewrite <-app_assoc. simpl. by rewrite Hfail. }
  split; [done|]. intros Hsummary. by exists hit.
Qed.

Lemma enrichment_failure_keeps_hit_witness :
  ∃ w1 movies totalResults totalPages,
    search ex_env (ex_search (Some "batman") None) ex_world
    = (w1, Ok (Response 200 (SearchPage movies totalResults 1 totalPages)))
    ∧ length movies = 3%nat
    ∧ movies !! 1%nat = Some (ex_hit "tt2").
Proof.
  destruct (enrichment_failure_keeps_hit ex_env
              (ex_search (Some "batman") None) ex_world "batman" 1 ex_page
              [ex_hit "tt1"; ex_hit "tt2"; ex_hit "tt3"])
    as (w1 & movies & totalResults & totalPages & Hrun & Hlen & Hkeep);
    [reflexivity|reflexivity|reflexivity|reflexivity|reflexivity|].
  exists w1, movies, totalResults, totalPages.
  split; [exact Hrun|]. split; [exact Hlen|].
  apply (Hkeep 1%nat (ex_hit "tt2") "timeout of 10000ms exceeded");
    reflexivity.
Defined.

(** ** Order of the entries *)

(** C3. In a matched page the ids of the returned movies are the ids of
    the provider's hits in the same order, whatever the latencies of the
    detail requests, hence whatever the order in which they complete: with
    any other latencies the answer is the same. *)
Theorem search_keeps_provider_order E req w query page d hits :
  validate (req_query req) = inr (query, page) →
  lookup_live (cache w) (now w) (searchKey query page) = None →
  provider E (calls w) (searchUrl E query page) = Reply d →
  get "Response" (fields d) = VStr "True" →
  Search d = Some hits →
  ∃ w1 movies totalResults totalPages,
    search E req w
    = (w1, Ok (Response 200 (SearchPage movies totalResults page totalPages)))
    ∧ imdbID <$> movies = imdbID <$> hits
    ∧ ∀ lat, ∃ w1',
        search (with_latency lat E) req w
        = (w1', Ok (Response 200
                      (SearchPage movies totalResults page totalPages))).
Proof.
  intros Hv Hc Hp Hr Hs.
  pose proof (search_matched E req w query page d hits Hv Hc Hp Hr Hs) as Hrun.
  cbv zeta in Hrun. eexists _, _, _, _. split; [exact Hrun|].
  split; [apply imdbID_entries|].
  intros lat.
  pose proof (search_matched (with_latency lat E) req w query page d hits
                Hv Hc Hp Hr Hs) as Hrun'.
  cbv zeta in Hrun'. eexists. rewrite Hrun'. do 4 f_equal.
  unfold entries. f_equal. apply pending_of_with_latency.
Qed.

Lemma search_keeps_provider_order_witness :
  ∃ w1 movies totalResults totalPages,
    search ex_env (ex_search (Some "batman") None) ex_world
    = (w1, Ok (Response 200 (SearchPage movies totalResults 1 totalPages)))
    ∧ imdbID <$> movies = [VStr "tt1"; VStr "tt2"; VStr "tt3"]
    ∧ ∃ w1',
        search (with_latency (λ _ _, 0%N) ex_env)
               (ex_search (Some "batman") None) ex_world
        = (w1', Ok (Response 200
                      (SearchPage movies totalResults 1 totalPages))).
Proof.
  destruct (search_keeps_provider_order ex_env
              (ex_search (Some "batman") None) ex_world "batman" 1 ex_page
              [ex_hit "tt1"; ex_hit "tt2"; ex_hit "tt3"])
    as (w1 & movies & totalResults & totalPages & Hrun & Hids & Hany);
    [reflexivity|reflexivity|reflexivity|reflexivity|reflexivity|].
  exists w1, movies, totalResults, totalPages.
  split; [exact Hrun|]. split; [exact Hids|]. apply Hany.
Defined.

(** ** Pagination *)

(** C6, as stated, fails: a count is held in a double, so a reported count
    beyond 2^53 need not come back as it was sent.  The provider reports
    9007199254740993 results and the page says 9007199254740992. *)
Lemma search_count_rounded :
  to_string (get "totalResults" (fields ex_huge_page))
  = pretty 9007199254740993%N
  ∧ ∃ w1 movies totalPages,
      search ex_huge (ex_search (Some "batman") None) ex_world
      = (w1, Ok (Response 200 (SearchPage movies (Num 9007199254740992) 1
                                          totalPages)))
      ∧ Num 9007199254740992 ≠ Num 9007199254740993.
Proof.
  split; [reflexivity|].
  pose proof (search_matched ex_huge (ex_search (Some "batman") None)
                ex_world "batman" 1 ex_huge_page [ex_hit "tt1"]
                eq_refl eq_refl eq_refl eq_refl eq_refl) as Hrun.
  cbv zeta in Hrun.
  change (parseInt (get "totalResults" (fields ex_huge_page)))
    with (Num 9007199254740992) in Hrun.
  eexists _, _, _. split; [exact Hrun|]. discriminate.
Qed.

(** C6, amended. In a matched page, when the provider reports a count [n]
    of at most 2^53 (as a decimal numeral or as a number), [totalResults]
    is [n], an integer not below 0, and [totalPages] is the ceiling of
    [n / 10]; 95 and 100 results make 10 pages, 101 make 11. *)
Theorem search_counts_pages E req w query page d hits (n : N) :
  validate (req_query req) = inr (query, page) →
  lookup_live (cache w) (now w) (searchKey query page) = None →
  provider E (calls w) (searchUrl E query page) = Reply d →
  get "Response" (fields d) = VStr "True" →
  Search d = Some hits →
  to_string (get "totalResults" (fields d)) = pretty n →
  (n ≤ 2 ^ 53)%N →
  (∃ w1 movies totalPages,
     search E req w
     = (w1, Ok (Response 200 (SearchPage movies (Num (Z.of_N n)) page
                                         (Num totalPages))))
     ∧ 0 ≤ Z.of_N n
     ∧ is_ceil_of_tenth (Z.of_N n) totalPages)
  ∧ ceil_div10 (Num 95) = Num 10
  ∧ ceil_div10 (Num 100) = Num 10
  ∧ ceil_div10 (Num 101) = Num 11.
Proof.
  intros Hv Hc Hp Hr Hs Hn Hsafe. split; [|done].
  pose proof (search_matched E req w query page d hits Hv Hc Hp Hr Hs) as Hrun.
  cbv zeta in Hrun. rewrite (parseInt_count _ n Hsafe Hn) in Hrun.
  destruct (ceil_div10_exact n Hsafe) as (totalPages & Hpages & Hceil).
  rewrite Hpages in Hrun.
  eexists _, _, _. split; [exact Hrun|]. split; [lia|exact Hceil].
Qed.

Lemma search_counts_pages_witness :
  ∃ w1 movies,
    search ex_env (ex_search (Some "batman") None) ex_world
    = (w1, Ok (Response 200 (SearchPage movies (Num 95) 1 (Num 10)))).
Proof.
  destruct (search_counts_pages ex_env (ex_search (Some "batman") None)
              ex_world "batman" 1 ex_page
              [ex_hit "tt1"; ex_hit "tt2"; ex_hit "tt3"] 95)
    as [(w1 & movies & totalPages & Hrun & _ & Hceil) _];
    [reflexivity|reflexivity|reflexivity|reflexivity|reflexivity|reflexivity
    |by vm_compute|].
  assert (totalPages = 10) as -> by (unfold is_ceil_of_tenth in Hceil; lia).
  exists w1, movies. exact Hrun.
Defined.

(** ** The search history *)





(** ** The popular list *)

Lemma length_seed_hits E log search :
  (length (seed_hits E log search) ≤ 3)%nat.
Proof.
  unfold seed_hits. destruct (provider E log _) as [d|]; simpl; [|lia].
  destruct (strict_eq _ _); simpl; [|lia].
  destruct (Search d); simpl; [|lia]. rewrite length_take. lia.
Qed.

(** The accumulated entries have the ids of the seeds' hits, seed by seed. *)
Lemma imdbID_accumulate E searches w :
  imdbID <$> accumulate E searches w
  = imdbID <$> accumulate_hits E searches w.
Proof.
  revert w. induction searches as [|search rest IH]; intros w; [done|].
  cbn [accumulate accumulate_hits]. rewrite !fmap_app, imdbID_entries.
  f_equal. apply IH.
Qed.

Lemma popular_miss E w :
  lookup_live (cache w) (now w) popularKey = None →
  let w1 := after_lookup popularKey w in
  let response :=
    PopularList (uniqueMovies (accumulate E trendingSearches w1)) in
  popular E w
  = (after_store popularKey response (after_seeds E trendingSearches w1),
     Ok (Response 200 response)).
Proof.
  intros Hc w1 response. subst w1 response. unfold popular, popular_body.
  generalize trendingSearches as seeds. intros seeds.
  apply try_run. unfold mbind, M_bind, cache_get, after_lookup.
  rewrite Hc, for_searches_run. reflexivity.
Qed.

(** C4. When the popular list is curated (a cache miss), the result is
    the accumulated list (per seed in seed order, the entries for the first
    three hits of its first page), deduplicated by id keeping the first
    occurrence and cut to its first 25 entries; so its ids are pairwise
    distinct and it has at most 25 entries. *)
Theorem popular_dedups_and_caps E w :
  lookup_live (cache w) (now w) popularKey = None →
  ∃ w1 movies,
    popular E w = (w1, Ok (Response 200 (PopularList movies)))
    ∧ (let accumulated :=
         accumulate E trendingSearches (after_lookup popularKey w) in
       movies = take 25 (dedup_by_id [] accumulated)
       ∧ imdbID <$> accumulated
         = imdbID <$> accumulate_hits E trendingSearches
                        (after_lookup popularKey w))
    ∧ (∀ log search, (length (seed_hits E log search) ≤ 3)%nat)
    ∧ NoDup (imdbID <$> movies)
    ∧ (length movies ≤ 25)%nat.
Proof.
  intros Hc. pose proof (popular_miss E w Hc) as Hrun. cbv zeta in Hrun.
  eexists _, _. split; [exact Hrun|].
  split; [split; [apply uniqueMovies_dedup|apply imdbID_accumulate]|].
  split; [apply length_seed_hits|].
  rewrite uniqueMovies_dedup. split.
  - rewrite fmap_take. eapply sublist_NoDup; [|apply sublist_take].
    apply dedup_by_id_NoDup.
  - rewrite length_take. lia.
Qed.

Lemma popular_dedups_and_caps_witness :
  ∃ w1 movies,
    popular ex_seeds ex_world = (w1, Ok (Response 200 (PopularList movies)))
    ∧ imdbID <$> accumulate ex_seeds trendingSearches
                   (after_lookup popularKey ex_world)
      = VStr <$> ["m1"; "m2"; "m3"; "m2"; "b2"; "b3"]
    ∧ imdbID <$> movies = VStr <$> ["m1"; "m2"; "m3"; "b2"; "b3"]
    ∧ NoDup (imdbID <$> movies)
    ∧ (length movies ≤ 25)%nat.
Proof.
  destruct (popular_dedups_and_caps ex_seeds ex_world)
    as (w1 & movies & Hrun & [Hmovies _] & _ & Hdistinct & Hlen);
    [reflexivity|].
  exists w1, movies. split; [exact Hrun|]. split; [by vm_compute|].
  split; [rewrite Hmovies; by vm_compute|].
  split; [exact Hdistinct|exact Hlen].
Defined.

(** The scenario with two overlapping seeds: the first three hits of each,
    the repeated m2 dropped at its second occurrence. *)
Lemma curate_two_seeds :
  imdbID <$> accumulate ex_seeds ["Marvel"; "Batman"] ex_world
  = VStr <$> ["m1"; "m2"; "m3"; "m2"; "b2"; "b3"]
  ∧ (for_searches ex_seeds ["Marvel"; "Batman"] [] ex_world).2
    = Ok (accumulate ex_seeds ["Marvel"; "Batman"] ex_world)
  ∧ imdbID <$> uniqueMovies (accumulate ex_seeds ["Marvel"; "Batman"] ex_world)
    = VStr <$> ["m1"; "m2"; "m3"; "b2"; "b3"].
Proof.
  split; [by vm_compute|]. split; [|by vm_compute].
  by rewrite for_searches_run.
Qed.

(** ** The two handlers of [/api/movie/:id] *)

(** The parameter's name plays no part in whether a path matches. *)
Lemma match_path_param_name n1 n2 path :
  match_path [Lit "api"; Lit "movie"; Param n1] path = None →
  match_path [Lit "api"; Lit "movie"; Param n2] path = None.
Proof.
  destruct path as [|a [|b [|seg [|extra path]]]]; cbn [match_path]; try done;
    destruct (String.eqb _ (lower a)); try done;
    destruct (String.eqb _ (lower b)); try done;
    destruct (String.eqb seg EmptyString); try done.
Qed.

(** No request is ever dispatched to the second handler. *)
Lemma second_movie_handler_unreachable req h params :
  dispatch req = Some (h, params) → h ≠ h_movie_imdbID.
Proof.
  unfold dispatch, routes. cbn [dispatch_in]. intros Hd ->.
  repeat match type of Hd with
         | match ?x with Some _ => _ | None => _ end = _ =>
             let H := fresh "Hroute" in
             destruct x eqn:H; [discriminate Hd|]
         end.
  destruct (bool_decide (GET = req_method req)); [|done].
  match goal with
  | Hid : match_path [_; _; Param "id"] _ = None |- _ =>
      rewrite (match_path_param_name "id" "imdbID" _ Hid) in Hd
  end.
  repeat match type of Hd with
         | match ?x with Some _ => _ | None => _ end = _ =>
             destruct x; [discriminate Hd|]
         end.
  discriminate Hd.
Qed.

Lemma movie_by_id_miss E id w d :
  lookup_live (cache w) (now w) (movieKey id) = None →
  provider E (calls w) (detailUrl E (VStr id)) = Reply d →
  let response :=
    if strict_eq (get "Response" (fields d)) (VStr "True") then MovieData d
    else Failure (js_or (get "Error" (fields d)) (VStr "Movie not found")) in
  movie_by_id E id w
  = (after_store (movieKey id) response
       (after_request E (detailUrl E (VStr id)) (after_lookup (movieKey id) w)),
     Ok (Response 200 response)).
Proof.
  intros Hc Hp response. unfold movie_by_id, movie_by_id_body.
  apply try_run.
  erewrite bind_run.
  2:{ unfold cache_get. rewrite Hc. reflexivity. }
  cbv beta iota.
  erewrite bind_run.
  2:{ apply makeOMDBRequest_reply. exact Hp. }
  unfold after_lookup. rewrite Hc. reflexivity.
Qed.

(** The first handler always answers, and never with 404. *)
Lemma movie_by_id_answers E id w :
  ∃ w1 r, movie_by_id E id w = (w1, Ok r)
          ∧ (status r = 200 ∨ status r = 500).
Proof.
  destruct (lookup_live (cache w) (now w) (movieKey id)) as [cached|] eqn:Hc.
  { eexists _, _. split.
    - unfold movie_by_id, movie_by_id_body. apply try_run.
      erewrite bind_run.
      2:{ unfold cache_get. rewrite Hc. reflexivity. }
      reflexivity.
    - by left. }
  destruct (provider E (calls w) (detailUrl E (VStr id))) as [d|cause] eqn:Hp.
  - eexists _, _. split; [by apply movie_by_id_miss|]. by left.
  - eexists _, _. split.
    + unfold movie_by_id, movie_by_id_body. erewrite try_caught.
      2:{ erewrite bind_run.
          2:{ unfold cache_get. rewrite Hc. reflexivity. }
          cbv beta iota. apply bind_throw. apply makeOMDBRequest_fail.
          exact Hp. }
      reflexivity.
    + by right.
Qed.

(** C10. A GET request for [/api/movie/:id] goes to the handler
    registered first, and no request ever reaches the one registered
    second; the first handler never answers 404: for an id the provider
    does not know it answers 200 with success=false, where the second
    would have answered 404; found or not, on a cache miss the answer is
    stored under [movie:{id}] with the full TTL. *)
Theorem movie_route_first_handler E a b id q ip w :
  lower a = "api" → lower b = "movie" → id ≠ EmptyString →
  let req := Request GET [a; b; id] q ip in
  dispatch req = Some (h_movie_id, [("id", id)])
  ∧ serve E req = Some (movie_by_id E id)
  ∧ (∀ req' h params, dispatch req' = Some (h, params) → h ≠ h_movie_imdbID)
  ∧ (∃ w1 r, movie_by_id E id w = (w1, Ok r) ∧ status r ≠ 404)
  ∧ (∀ d, lookup_live (cache w) (now w) (movieKey id) = None →
          provider E (calls w) (detailUrl E (VStr id)) = Reply d →
          ∃ w1 response,
            movie_by_id E id w = (w1, Ok (Response 200 response))
            ∧ response
              = (if strict_eq (get "Response" (fields d)) (VStr "True")
                 then MovieData d
                 else Failure (js_or (get "Error" (fields d))
                                     (VStr "Movie not found")))
            ∧ data (cache w1) !! movieKey id
              = Some (Entry response (now w1 + stdTTL * 1000)))
  ∧ (∀ d, provider E (calls w)
                   ("https://www.omdbapi.com/?apikey=" +:+ OMDB_API_KEY E
                      +:+ "&i=" +:+ encodeURIComponent E id) = Reply d →
          get "Response" (fields d) ≠ VStr "True" →
          ∃ w1 error,
            movie_by_imdbID E id w = (w1, Ok (Response 404 (Failure error)))).
Proof.
  intros Ha Hb Hid req.
  assert (dispatch req = Some (h_movie_id, [("id", id)])) as Hd.
  { unfold dispatch, routes. cbn [dispatch_in req req_method req_path].
    rewrite !bool_decide_eq_false_2 by discriminate.
    rewrite !bool_decide_eq_true_2 by done.
    cbn [match_path]. rewrite Ha, Hb. simpl.
    by rewrite (proj2 (String.eqb_neq id EmptyString)). }
  split; [exact Hd|]. split.
  { unfold serve. by rewrite Hd. }
  split; [apply second_movie_handler_unreachable|]. split.
  { destruct (movie_by_id_answers E id w) as (w1 & r & Hrun & Hstatus).
    exists w1, r. split; [done|]. destruct Hstatus as [-> | ->]; done. }
  split.
  - intros d Hc Hp. pose proof (movie_by_id_miss E id w d Hc Hp) as Hrun.
    cbv zeta in Hrun. eexists _, _. split; [exact Hrun|]. split; [done|].
    apply stored_entry_now.
  - intros d Hp Hr. eexists _, _.
    unfold movie_by_imdbID. apply try_run.
    rewrite (proj2 (String.eqb_neq id EmptyString)) by done.
    erewrite bind_run.
    2:{ apply makeOMDBRequest_reply. exact Hp. }
    cbv beta iota. unfold strict_eq.
    rewrite bool_decide_eq_false_2 by done. reflexivity.
Qed.

Lemma movie_route_first_handler_witness :
  dispatch (ex_movie "tt0000000") = Some (h_movie_id, [("id", "tt0000000")])
  ∧ ∃ w1,
      movie_by_id ex_env "tt0000000" ex_world
      = (w1, Ok (Response 200 (Failure (VStr "Movie not found!"))))
      ∧ data (cache w1) !! movieKey "tt0000000"
        = Some (Entry (Failure (VStr "Movie not found!"))
                      (now w1 + stdTTL * 1000)).
Proof.
  destruct (movie_route_first_handler ex_env
              "api" "movie" "tt0000000" (SearchQuery None None) "203.0.113.7"
              ex_world)
    as (Hd & _ & _ & _ & Hmiss & _);
    [reflexivity|reflexivity|discriminate|].
  split; [exact Hd|].
  destruct (Hmiss ex_nothing) as (w1 & response & Hrun & -> & Hstored);
    [reflexivity|reflexivity|].
  exists w1. split; [exact Hrun|exact Hstored].
Defined.

(** * Further properties of the handlers *)

(** ** Cache keys *)

Lemma append_nil_l s : EmptyString +:+ s = s.
Proof. reflexivity. Qed.

Lemma append_cons c s t : String c s +:+ t = String c (s +:+ t).
Proof. reflexivity. Qed.

Lemma has_colon_app s t : has_colon (s +:+ t) = has_colon s || has_colon t.
Proof.
  induction s as [|c s IH]; [done|]. rewrite append_cons. simpl.
  rewrite IH. by destruct (Ascii.eqb c ":").
Qed.

Lemma has_colon_pretty_N_go x s :
  has_colon (pretty_N_go x s) = has_colon s.
Proof.
  revert s. induction (N.lt_wf_0 x) as [x _ IH]. intros s.
  destruct (decide (x = 0)%N) as [->|Hx]; [by rewrite pretty_N_go_0|].
  rewrite pretty_N_go_step by lia.
  rewrite IH by (apply N.div_lt; lia). simpl.
  assert (x `mod` 10 < 10)%N as Hd by (apply N.mod_lt; lia).
  generalize dependent (x `mod` 10)%N. intros d Hd.
  assert (d = 0 ∨ d = 1 ∨ d = 2 ∨ d = 3 ∨ d = 4 ∨ d = 5 ∨ d = 6 ∨ d = 7
          ∨ d = 8 ∨ d = 9)%N as Hcases by lia.
  repeat (destruct Hcases as [->|Hcases]; [done|]). by subst.
Qed.

Lemma has_colon_pretty_N (n : N) : has_colon (pretty n) = false.
Proof.
  unfold pretty, pretty_N. destruct (decide (n = 0)%N); [done|].
  by rewrite has_colon_pretty_N_go.
Qed.

(** A printed page number has no colon. *)
Lemma has_colon_pretty_Z (z : Z) : has_colon (pretty z) = false.
Proof.
  destruct z as [|p|p]; [done| |].
  - apply (has_colon_pretty_N (Npos p)).
  - change (has_colon ("-" +:+ pretty (Npos p)) = false).
    rewrite has_colon_app. apply (has_colon_pretty_N (Npos p)).
Qed.

(** The last colon of a key separates the query from the page. *)
Lemma append_colon_inj s1 s2 t1 t2 :
  has_colon t1 = false → has_colon t2 = false →
  s1 +:+ ":" +:+ t1 = s2 +:+ ":" +:+ t2 → s1 = s2 ∧ t1 = t2.
Proof.
  intros Ht1 Ht2. revert s2.
  induction s1 as [|c1 s1 IH]; intros [|c2 s2] Heq;
    repeat (progress rewrite ?append_nil_l, ?append_cons in Heq).
  - by injection Heq as ->.
  - injection Heq as <- ->.
    rewrite has_colon_app in Ht1. simpl in Ht1.
    by rewrite orb_true_r in Ht1.
  - injection Heq as -> <-.
    rewrite has_colon_app in Ht2. simpl in Ht2.
    by rewrite orb_true_r in Ht2.
  - injection Heq as -> Heq. destruct (IH _ Heq) as [-> ->]. done.
Qed.

(** Two equal keys are equal after their common prefix. *)
Lemma searchKey_tail query1 page1 query2 page2 :
  searchKey query1 page1 = searchKey query2 page2 →
  query1 +:+ ":" +:+ pretty page1 = query2 +:+ ":" +:+ pretty page2.
Proof.
  unfold searchKey. intros Heq.
  repeat (progress rewrite ?append_nil_l, ?append_cons in Heq).
  by injection Heq.
Qed.

(** X1. Two searches share a cache key only when they have the same
    query and the same page, colons in the query included. *)
Theorem searchKey_inj query1 page1 query2 page2 :
  searchKey query1 page1 = searchKey query2 page2 →
  query1 = query2 ∧ page1 = page2.
Proof.
  intros Heq. apply searchKey_tail in Heq.
  apply append_colon_inj in Heq as [-> Hpage];
    [|apply has_colon_pretty_Z..].
  split; [done|]. by apply (inj pretty).
Qed.

Lemma searchKey_inj_witness : "a:1" = "a:1" ∧ 2 = 2.
Proof.
  apply (searchKey_inj "a:1" 2 "a:1" 2). reflexivity.
Defined.

(** The keys of the three handlers never meet. *)
Lemma keys_apart query page id :
  searchKey query page ≠ movieKey id
  ∧ searchKey query page ≠ popularKey
  ∧ movieKey id ≠ popularKey.
Proof.
  unfold searchKey, movieKey, popularKey.
  rewrite !append_cons. by repeat split.
Qed.

(** ** What a search leaves alone *)

Lemma data_after_history E query results ip w :
  cache (after_history E query results ip w) = cache w
  ∧ now (after_history E query results ip w) = now w
  ∧ calls (after_history E query results ip w) = calls w.
Proof.
  unfold after_history. destruct (isMongoConnected w); [|done].
  by destruct (db_accepts E (history w) _).
Qed.

Lemma data_after_store_ne key v w k :
  k ≠ key →
  data (cache (after_store key v w)) !! k = data (cache w) !! k.
Proof.
  intros Hk. unfold after_store, store. simpl. by rewrite lookup_insert_ne.
Qed.

(** The outcome of a search, path by path: [tac] is run on each path with
    the run of the handler rewritten to the path's result. *)
Ltac search_paths E req w Hrun :=
  let error := fresh "error" in
  let query := fresh "query" in
  let page := fresh "page" in
  let Hv := fresh "Hv" in
  let Hc := fresh "Hc" in
  let Hp := fresh "Hp" in
  let Hr := fresh "Hr" in
  let Hs := fresh "Hs" in
  let cached := fresh "cached" in
  let d := fresh "d" in
  let cause := fresh "cause" in
  let hits := fresh "hits" in
  destruct (validate (req_query req)) as [error|[query page]] eqn:Hv;
  [ rewrite (search_rejected E req w error Hv) in Hrun
  | destruct (lookup_live (cache w) (now w) (searchKey query page))
      as [cached|] eqn:Hc;
    [ rewrite (search_cached E req w query page cached Hv Hc) in Hrun
    | destruct (provider E (calls w) (searchUrl E query page))
        as [d|cause] eqn:Hp;
      [ destruct (decide (get "Response" (fields d) = VStr "True"))
          as [Hr|Hr];
        [ destruct (Search d) as [hits|] eqn:Hs;
          [ rewrite (search_matched E req w query page d hits Hv Hc Hp Hr Hs)
              in Hrun
          | rewrite (search_malformed E req w query page d Hv Hc Hp Hr Hs)
              in Hrun ]
        | rewrite (search_no_match E req w query page d Hv Hc Hp Hr) in Hrun ]
      | rewrite (search_unavailable E req w query page cause Hv Hc Hp)
          in Hrun ] ] ];
  injection Hrun as <- <-.

Lemma data_after_store key v w :
  data (cache (after_store key v w))
  = <[key := Entry v (now w + stdTTL * 1000)]> (data (cache w)).
Proof. done. Qed.

(** A search touches the cache under its own key only. *)
Lemma search_cache_frame E req w w1 r :
  search E req w = (w1, Ok r) →
  data (cache w1) = data (cache w)
  ∨ ∃ query page,
      validate (req_query req) = inr (query, page)
      ∧ ∀ k, k ≠ searchKey query page →
          data (cache w1) !! k = data (cache w) !! k.
Proof.
  intros Hrun. search_paths E req w Hrun.
  - by left.
  - left. by apply (data_after_lookup_live _ _ cached).
  - right. exists query, page. split; [done|]. intros k Hk.
    rewrite data_after_store_ne, (proj1 (data_after_history _ _ _ _ _)) by done.
    change (data (cache (after_request E (searchUrl E query page)
                           (after_lookup (searchKey query page) w))) !! k
            = data (cache w) !! k).
    rewrite data_after_primary by done. by apply lookup_delete_ne.
  - right. exists query, page. split; [done|]. intros k Hk.
    change (data (cache (after_request E (searchUrl E query page)
                           (after_lookup (searchKey query page) w))) !! k
            = data (cache w) !! k).
    rewrite data_after_primary by done. by apply lookup_delete_ne.
  - right. exists query, page. split; [done|]. intros k Hk.
    rewrite data_after_store_ne by done.
    rewrite data_after_primary by done. by apply lookup_delete_ne.
  - right. exists query, page. split; [done|]. intros k Hk.
    change (data (cache (after_request E (searchUrl E query page)
                           (after_lookup (searchKey query page) w))) !! k
            = data (cache w) !! k).
    rewrite data_after_primary by done. by apply lookup_delete_ne.
Qed.

(** X2. A search leaves the entry of every other search alone: after a
    search for one query and page, the cache holds under the key of any
    other query or page exactly what it held before. *)
Theorem search_leaves_other_searches E req w w1 r query page query' page' :
  search E req w = (w1, Ok r) →
  validate (req_query req) = inr (query, page) →
  (query', page') ≠ (query, page) →
  data (cache w1) !! searchKey query' page'
  = data (cache w) !! searchKey query' page'.
Proof.
  intros Hrun Hv Hne.
  destruct (search_cache_frame _ _ _ _ _ Hrun)
    as [->|(q & p & Hv' & Hframe)]; [done|].
  rewrite Hv in Hv'. injection Hv' as <- <-.
  apply Hframe. intros Hkey. symmetry in Hkey. apply searchKey_tail in Hkey.
  apply append_colon_inj in Hkey as [-> Hpage];
    [|apply has_colon_pretty_Z..].
  apply (inj pretty) in Hpage as ->. done.
Qed.

Lemma search_leaves_other_searches_witness :
  ∃ w1 r,
    search ex_env (ex_search (Some "batman") None) ex_world = (w1, Ok r)
    ∧ data (cache w1) !! searchKey "batman" 2
      = data (cache ex_world) !! searchKey "batman" 2.
Proof.
  destruct (search_answers ex_env (ex_search (Some "batman") None) ex_world
              "batman" 1 eq_refl) as (w1 & r & Hrun & _).
  exists w1, r. split; [exact Hrun|].
  apply (search_leaves_other_searches ex_env
           (ex_search (Some "batman") None) ex_world w1 r "batman" 1
           "batman" 2 Hrun); [reflexivity|discriminate].
Defined.

(** X3. A search never touches what the other handlers cached: the
    entries under [popular:movies] and under every [movie:{id}] are the
    same before and after, whatever the outcome of the search. *)
Theorem search_leaves_other_handlers E req w w1 r :
  search E req w = (w1, Ok r) →
  data (cache w1) !! popularKey = data (cache w) !! popularKey
  ∧ ∀ id, data (cache w1) !! movieKey id = data (cache w) !! movieKey id.
Proof.
  intros Hrun.
  destruct (search_cache_frame _ _ _ _ _ Hrun)
    as [->|(q & p & _ & Hframe)]; [done|].
  split; [|intros id]; apply Hframe; intros Hkey; symmetry in Hkey; revert Hkey.
  - by destruct (keys_apart q p EmptyString) as (_ & Hne & _).
  - by destruct (keys_apart q p id) as (Hne & _).
Qed.

Lemma search_leaves_other_handlers_witness :
  ∃ w1 r,
    search ex_env (ex_search (Some "batman") None) ex_world = (w1, Ok r)
    ∧ data (cache w1) !! popularKey = data (cache ex_world) !! popularKey.
Proof.
  destruct (search_answers ex_env (ex_search (Some "batman") None) ex_world
              "batman" 1 eq_refl) as (w1 & r & Hrun & _).
  exists w1, r. split; [exact Hrun|].
  apply (search_leaves_other_handlers ex_env
           (ex_search (Some "batman") None) ex_world w1 r Hrun).
Defined.

(** ** More on [GET /api/search] *)

Lemma search_total E req w : ∃ w1 r, search E req w = (w1, Ok r).
Proof.
  destruct (validate (req_query req)) as [error|[query page]] eqn:Hv.
  - eexists _, _. by apply search_rejected.
  - destruct (search_answers E req w query page Hv) as (w1 & r & Hrun & _).
    by exists w1, r.
Qed.

(** X5. The search handler lets no exception escape: every request is
    answered, with 400 exactly when validation fails and otherwise with
    200 or 500. *)
Theorem search_always_answers E req w :
  ∃ w1 r,
    search E req w = (w1, Ok r)
    ∧ (status r = 400 ↔ ∃ error, validate (req_query req) = inl error)
    ∧ (status r = 200 ∨ status r = 400 ∨ status r = 500).
Proof.
  destruct (validate (req_query req)) as [error|[query page]] eqn:Hv.
  - eexists _, _. split; [by apply search_rejected|]. simpl.
    split; [|by right; left]. split; [by eexists|done].
  - destruct (search_answers E req w query page Hv)
      as (w1 & r & Hrun & Hstatus).
    exists w1, r. split; [done|]. split.
    + split; [|by intros [? ?]]. destruct Hstatus as [-> | ->]; done.
    + destruct Hstatus; [by left|by right; right].
Qed.

Lemma calls_after_fan_out E movies w :
  calls (after_fan_out E movies w) = calls w ++ detailUrls E movies.
Proof. done. Qed.

Lemma calls_after_matched E query page results ip hits key w :
  calls (after_history E query results ip
           (after_fan_out E hits
              (after_request E (searchUrl E query page) (after_lookup key w))))
  = calls w ++ searchUrl E query page :: detailUrls E hits.
Proof.
  rewrite (proj2 (proj2 (data_after_history _ _ _ _ _))).
  rewrite calls_after_fan_out, calls_after_primary, <-app_assoc. done.
Qed.

(** X6. A matched search on a cache miss issues exactly one request for
    the page and then one detail request per hit, in the order of the
    hits; no request is repeated. *)
Theorem search_requests_per_hit E req w query page d hits :
  validate (req_query req) = inr (query, page) →
  lookup_live (cache w) (now w) (searchKey query page) = None →
  provider E (calls w) (searchUrl E query page) = Reply d →
  get "Response" (fields d) = VStr "True" →
  Search d = Some hits →
  ∃ w1 r,
    search E req w = (w1, Ok r)
    ∧ calls w1 = calls w ++ searchUrl E query page :: detailUrls E hits.
Proof.
  intros Hv Hc Hp Hr Hs. eexists _, _.
  split; [by apply (search_matched E req w query page d hits)|].
  apply (calls_after_matched E query page
           (parseInt (get "totalResults" (fields d))) (req_ip req) hits
           (searchKey query page) w).
Qed.

Lemma search_requests_per_hit_witness :
  ∃ w1 r,
    search ex_env (ex_search (Some "batman") None) ex_world = (w1, Ok r)
    ∧ calls w1
      = ["https://www.omdbapi.com/?apikey=k&s=batman&page=1";
         "https://www.omdbapi.com/?apikey=k&i=tt1";
         "https://www.omdbapi.com/?apikey=k&i=tt2";
         "https://www.omdbapi.com/?apikey=k&i=tt3"].
Proof.
  apply (search_requests_per_hit ex_env (ex_search (Some "batman") None)
           ex_world "batman" 1 ex_page
           [ex_hit "tt1"; ex_hit "tt2"; ex_hit "tt3"]); reflexivity.
Defined.

(** X7. In a matched page, a hit whose detail request is answered gets
    each of the seven enrichment fields from the detail record
    ([undefined] where the record has none), and keeps its own value for
    every other property, whatever the detail record says there. *)
Theorem enrichment_merges_detail E req w query page d hits i hit detail :
  validate (req_query req) = inr (query, page) →
  lookup_live (cache w) (now w) (searchKey query page) = None →
  provider E (calls w) (searchUrl E query page) = Reply d →
  get "Response" (fields d) = VStr "True" →
  Search d = Some hits →
  hits !! i = Some hit →
  provider E (calls w ++ searchUrl E query page :: detailUrls E (take i hits))
           (detailUrl E (imdbID hit)) = Reply detail →
  ∃ w1 movies totalResults totalPages entry,
    search E req w
    = (w1, Ok (Response 200 (SearchPage movies totalResults page totalPages)))
    ∧ movies !! i = Some entry
    ∧ (∀ k, k ∈ enrichment_fields → get k entry = get k (fields detail))
    ∧ (∀ k, k ∉ enrichment_fields → get k entry = get k hit).
Proof.
  intros Hv Hc Hp Hr Hs Hi Hdetail.
  pose proof (search_matched E req w query page d hits Hv Hc Hp Hr Hs) as Hrun.
  cbv zeta in Hrun. eexists _, _, _, _, _. split; [exact Hrun|].
  split.
  { rewrite (lookup_entries _ _ _ _ _ Hi), calls_after_primary.
    rewrite <-app_assoc. simpl. by rewrite Hdetail. }
  split; intros k Hk; simpl.
  - by apply with_details_field.
  - by apply with_details_other.
Qed.

Lemma enrichment_merges_detail_witness :
  ∃ w1 movies totalResults totalPages entry,
    search ex_env (ex_search (Some "batman") None) ex_world
    = (w1, Ok (Response 200 (SearchPage movies totalResults 1 totalPages)))
    ∧ movies !! 0%nat = Some entry
    ∧ get "Plot" entry = VStr "A plot."
    ∧ get "Title" entry = VStr "The tt1".
Proof.
  destruct (enrichment_merges_detail ex_env (ex_search (Some "batman") None)
              ex_world "batman" 1 ex_page
              [ex_hit "tt1"; ex_hit "tt2"; ex_hit "tt3"] 0 (ex_hit "tt1")
              ex_detail)
    as (w1 & movies & tr & tp & entry & Hrun & Hentry & Hin & Hout);
    [reflexivity..|].
  exists w1, movies, tr, tp, entry.
  split; [exact Hrun|]. split; [exact Hentry|]. split.
  - rewrite Hin; [reflexivity|]. apply (bool_decide_unpack _). by vm_compute.
  - rewrite Hout; [reflexivity|]. apply (bool_decide_unpack _). by vm_compute.
Defined.

(** X8. An entry whose time has passed is never served: the handler
    goes to the provider again, the page request being the next request
    issued. *)
Theorem search_expired_refetches E req w query page e :
  validate (req_query req) = inr (query, page) →
  data (cache w) !! searchKey query page = Some e →
  e_expires e < now w →
  ∃ w1 r rest,
    search E req w = (w1, Ok r)
    ∧ calls w1 = calls w ++ searchUrl E query page :: rest.
Proof.
  intros Hv He Hexp.
  assert (lookup_live (cache w) (now w) (searchKey query page) = None) as Hc.
  { unfold lookup_live. rewrite He. by rewrite bool_decide_eq_true_2. }
  destruct (provider E (calls w) (searchUrl E query page)) as [d|cause] eqn:Hp.
  2:{ eexists _, _, []. split; [by apply search_unavailable|].
      apply calls_after_primary. }
  destruct (decide (get "Response" (fields d) = VStr "True")) as [Hr|Hr].
  2:{ eexists _, _, []. split; [by apply search_no_match|].
      apply calls_after_primary. }
  destruct (Search d) as [hits|] eqn:Hs.
  - eexists _, _, (detailUrls E hits).
    split; [by apply (search_matched E req w query page d hits)|].
    apply (calls_after_matched E query page
             (parseInt (get "totalResults" (fields d))) (req_ip req) hits
             (searchKey query page) w).
  - eexists _, _, [].
    split; [by apply (search_malformed E req w query page d)|].
    apply calls_after_primary.
Qed.

Lemma search_expired_refetches_witness :
  ∃ w1 r w2 r2 rest,
    search ex_env (ex_search (Some "zzzz") None) ex_world = (w1, Ok r)
    ∧ search ex_env (ex_search (Some "zzzz") None) (elapse 3600001 w1)
      = (w2, Ok r2)
    ∧ calls w2 = calls w1 ++ searchUrl ex_env "zzzz" 1 :: rest.
Proof.
  pose (req := ex_search (Some "zzzz") None).
  assert (Hrun := search_no_match ex_env req ex_world "zzzz" 1 ex_nothing
                    eq_refl eq_refl eq_refl).
  specialize (Hrun ltac:(discriminate)). cbv zeta in Hrun.
  match type of Hrun with
  | _ = (?w, Ok ?r) => set (w1 := w) in *; set (r1 := r) in *
  end.
  destruct (search_expired_refetches ex_env req (elapse 3600001 w1) "zzzz" 1
              (Entry (Failure (VStr "Movie not found!"))
                     (now w1 + stdTTL * 1000)))
    as (w2 & r2 & rest & Hrun2 & Hcalls); [reflexivity|reflexivity| |].
  - unfold stdTTL, elapse. simpl. lia.
  - exists w1, r1, w2, r2, rest.
    split; [exact Hrun|]. split; [exact Hrun2|exact Hcalls].
Defined.

(** X9. A payload that says [Response: "True"] but has no [Search] array
    is fatal for a search: 500, the TypeError on the console and nothing
    stored (the cache holds no entry under the key, having lost at most
    the expired one the read found there, and serves from then on what it
    would have served).  The popular loop just skips the seed and goes on
    with the next one, the accumulated list unchanged. *)
Theorem match_without_hits E req w query page d :
  get "Response" (fields d) = VStr "True" →
  Search d = None →
  (validate (req_query req) = inr (query, page) →
   lookup_live (cache w) (now w) (searchKey query page) = None →
   provider E (calls w) (searchUrl E query page) = Reply d →
   ∃ w1,
     search E req w
     = (w1, Ok (Response 500 (Failure (VStr "Internal server error"))))
     ∧ data (cache w1) = delete (searchKey query page) (data (cache w))
     ∧ data (cache w1) !! searchKey query page = None
     ∧ (∀ key t, now w ≤ t →
          lookup_live (cache w1) t key = lookup_live (cache w) t key)
     ∧ console w1 = console w ++ [Search_error TypeError])
  ∧ (∀ seed rest popularMovies,
       provider E (calls w) (searchUrl E seed 1) = Reply d →
       for_searches E (seed :: rest) popularMovies w
       = for_searches E rest popularMovies
           (after_request E (searchUrl E seed 1) w)).
Proof.
  intros Hr Hs. split.
  - intros Hv Hc Hp. eexists.
    split; [by apply (search_malformed E req w query page d)|].
    assert (data (cache (log_to_console [Search_error TypeError]
                           (after_request E (searchUrl E query page)
                              (after_lookup (searchKey query page) w))))
            = delete (searchKey query page) (data (cache w))) as Hdata.
    { by apply data_after_primary. }
    destruct (miss_leaves_cache _ _ _ Hc Hdata) as (Hnone & _ & Hserved).
    split; [exact Hdata|]. split; [exact Hnone|]. split; [exact Hserved|].
    unfold log_to_console. cbn [console].
    by rewrite console_after_primary.
  - intros seed rest popularMovies Hp. cbn [for_searches].
    erewrite bind_run; [done|].
    apply try_run. erewrite bind_run by by apply makeOMDBRequest_reply.
    by rewrite Hr, Hs.
Qed.

Lemma match_without_hits_witness :
  data (cache ex_stale) !! searchKey "batman" 1
  = Some (Entry (Failure (VStr "Old answer")) 500)
  ∧ ∃ w1,
      search (Env "k" (λ s, s)
                  (λ _ _, Reply (Payload [("Response", VStr "True")] None))
                  ex_latency (λ _ _, true))
             (ex_search (Some "batman") None) ex_stale
      = (w1, Ok (Response 500 (Failure (VStr "Internal server error"))))
      ∧ data (cache w1) !! searchKey "batman" 1 = None
      ∧ lookup_live (cache w1) 1500 popularKey = Some (PopularList [])
      ∧ console w1 = [Search_error TypeError].
Proof.
  split; [reflexivity|].
  destruct (match_without_hits
              (Env "k" (λ s, s)
                   (λ _ _, Reply (Payload [("Response", VStr "True")] None))
                   ex_latency (λ _ _, true))
              (ex_search (Some "batman") None) ex_stale "batman" 1
              (Payload [("Response", VStr "True")] None))
    as [Hsearch _]; [reflexivity|reflexivity|].
  destruct Hsearch as (w1 & Hrun & _ & Hnone & Hserved & Hconsole);
    [reflexivity|reflexivity|reflexivity|].
  exists w1. split; [exact Hrun|]. split; [exact Hnone|].
  split; [rewrite Hserved; by vm_compute|exact Hconsole].
Defined.

Lemma after_history_disconnected E query results ip w :
  isMongoConnected w = false → after_history E query results ip w = w.
Proof. unfold after_history. by intros ->. Qed.

Lemma after_fan_out_with_db accepts E movies w :
  after_fan_out (with_db accepts E) movies w = after_fan_out E movies w.
Proof.
  unfold after_fan_out. cbv zeta. by rewrite !pending_of_with_db.
Qed.

(** X10. While the database is not connected a search never touches it:
    the history stays as it is, and the run of the handler, answer and
    world alike, is the same whatever the database would have done. *)
Theorem search_without_database E req w accepts :
  isMongoConnected w = false →
  search (with_db accepts E) req w = search E req w
  ∧ ∀ w1 r, search E req w = (w1, Ok r) → history w1 = history w.
Proof.
  intros Hm. split.
  - destruct (search_total E req w) as (w1 & r & Hrun).
    rewrite Hrun. search_paths E req w Hrun.
    + by apply search_rejected.
    + by apply search_cached.
    + rewrite (search_matched (with_db accepts E) req w _ _ _ _
                 Hv Hc Hp Hr Hs).
      rewrite after_fan_out_with_db.
      rewrite !after_history_disconnected
        by (etrans; [apply history_after_primary|exact Hm]).
      unfold entries. by rewrite pending_of_with_db.
    + by apply (search_malformed (with_db accepts E) req w _ _ _
                  Hv Hc Hp Hr Hs).
    + by apply (search_no_match (with_db accepts E) req w _ _ _ Hv Hc Hp Hr).
    + by apply (search_unavailable (with_db accepts E) req w _ _ _ Hv Hc Hp).
  - intros w1 r Hrun. search_paths E req w Hrun.
    + done.
    + by destruct (after_lookup_frame (searchKey query page) w)
        as (_ & _ & _ & _ & ->).
    + rewrite after_history_disconnected
        by (etrans; [apply history_after_primary|exact Hm]).
      apply history_after_primary.
    + apply history_after_primary.
    + apply history_after_primary.
    + apply history_after_primary.
Qed.

Lemma search_without_database_witness :
  search (with_db (λ _ _, false) ex_env) (ex_search (Some "batman") None)
         (World (Cache ∅ 0 0) 1000 [] [] [] false)
  = search ex_env (ex_search (Some "batman") None)
           (World (Cache ∅ 0 0) 1000 [] [] [] false).
Proof.
  apply (search_without_database ex_env (ex_search (Some "batman") None)
           (World (Cache ∅ 0 0) 1000 [] [] [] false)). reflexivity.
Defined.

Lemma has_false_get k o : has k o = false → get k o = VUndefined.
Proof.
  induction o as [|[k' v'] o IH]; simpl; [done|].
  destruct (String.eqb k k'); simpl; [done|auto].
Qed.

(** X11. When the matched payload has no [totalResults] field, the page
    is still answered with 200 and cached, with [NaN] for both
    [totalResults] and [totalPages]. *)
Theorem search_without_count E req w query page d hits :
  validate (req_query req) = inr (query, page) →
  lookup_live (cache w) (now w) (searchKey query page) = None →
  provider E (calls w) (searchUrl E query page) = Reply d →
  get "Response" (fields d) = VStr "True" →
  Search d = Some hits →
  has "totalResults" (fields d) = false →
  ∃ w1 movies,
    search E req w
    = (w1, Ok (Response 200 (SearchPage movies NaN page NaN)))
    ∧ data (cache w1) !! searchKey query page
      = Some (Entry (SearchPage movies NaN page NaN) (now w1 + stdTTL * 1000)).
Proof.
  intros Hv Hc Hp Hr Hs Hcount.
  pose proof (search_matched E req w query page d hits Hv Hc Hp Hr Hs) as Hrun.
  cbv zeta in Hrun. rewrite (has_false_get _ _ Hcount) in Hrun.
  change (parseInt VUndefined) with NaN in Hrun.
  eexists _, _. split; [exact Hrun|]. apply stored_entry_now.
Qed.

Lemma search_without_count_witness :
  ∃ w1 movies,
    search (Env "k" (λ s, s)
                (λ _ _, Reply (Payload [("Response", VStr "True")] (Some [])))
                ex_latency (λ _ _, true))
           (ex_search (Some "batman") None) ex_world
    = (w1, Ok (Response 200 (SearchPage movies NaN 1 NaN)))
    ∧ data (cache w1) !! searchKey "batman" 1
      = Some (Entry (SearchPage movies NaN 1 NaN) (now w1 + stdTTL * 1000)).
Proof.
  apply (search_without_count
           (Env "k" (λ s, s)
                (λ _ _, Reply (Payload [("Response", VStr "True")] (Some [])))
                ex_latency (λ _ _, true))
           (ex_search (Some "batman") None) ex_world "batman" 1
           (Payload [("Response", VStr "True")] (Some [])) []);
    reflexivity.
Defined.

(** ** More on [GET /api/popular] *)

Lemma popular_hit E w cached :
  lookup_live (cache w) (now w) popularKey = Some cached →
  popular E w = (after_lookup popularKey w, Ok (Response 200 cached)).
Proof.
  intros Hc. unfold popular, popular_body. apply try_run.
  unfold mbind, M_bind, cache_get, after_lookup. by rewrite Hc.
Qed.

Lemma calls_after_each E movies w :
  calls (after_each E movies w) = calls w ++ detailUrls E movies.
Proof.
  revert w. induction movies as [|movie rest IH]; intros w; simpl.
  - by rewrite app_nil_r.
  - rewrite IH, calls_after_attempt, <-app_assoc. done.
Qed.

Lemma calls_after_seed E seed w :
  calls (after_seed E seed w)
  = calls w ++ searchUrl E seed 1
             :: detailUrls E (seed_hits E (calls w) seed).
Proof.
  unfold after_seed, seed_hits.
  destruct (provider E (calls w) (searchUrl E seed 1)) as [d|cause] eqn:Hp.
  - rewrite calls_after_each. unfold after_request, elapse, issue. simpl.
    by rewrite <-app_assoc.
  - unfold log_to_console. cbn [calls]. by rewrite calls_after_attempt.
Qed.

(** X12. A seed whose search request fails is logged and skipped: the
    loop goes on with the next seed and the accumulated list is as it
    was. *)
Theorem failed_seed_is_skipped E seed rest popularMovies w cause :
  provider E (calls w) (searchUrl E seed 1) = Fail cause →
  for_searches E (seed :: rest) popularMovies w
  = for_searches E rest popularMovies
      (log_to_console [OMDB_API_Error cause; Trending_error seed FetchError]
         (after_request E (searchUrl E seed 1) w)).
Proof.
  intros Hp. cbn [for_searches].
  erewrite bind_run; [done|].
  erewrite try_caught by (apply bind_throw; by apply makeOMDBRequest_fail).
  unfold mbind, M_bind, console_error, mret, M_ret.
  by rewrite log_to_console_app.
Qed.

Lemma failed_seed_is_skipped_witness :
  for_searches ex_down ["Marvel"; "Batman"] [ex_hit "tt1"] ex_world
  = for_searches ex_down ["Batman"] [ex_hit "tt1"]
      (log_to_console [OMDB_API_Error "getaddrinfo ENOTFOUND";
                       Trending_error "Marvel" FetchError]
         (after_request ex_down (searchUrl ex_down "Marvel" 1) ex_world)).
Proof.
  apply (failed_seed_is_skipped ex_down "Marvel" ["Batman"] [ex_hit "tt1"]
           ex_world "getaddrinfo ENOTFOUND"). reflexivity.
Defined.

Lemma seed_hits_down E log seed :
  provider_down E → seed_hits E log seed = [].
Proof.
  intros Hdown. unfold seed_hits.
  by destruct (Hdown log (searchUrl E seed 1)) as [cause ->].
Qed.

Lemma accumulate_down E seeds w :
  provider_down E → accumulate E seeds w = [].
Proof.
  intros Hdown. revert w. induction seeds as [|seed rest IH]; intros w; [done|].
  cbn [accumulate]. by rewrite seed_hits_down, IH.
Qed.

Lemma calls_after_seeds_down E seeds w :
  provider_down E →
  calls (after_seeds E seeds w)
  = calls w ++ ((λ seed, searchUrl E seed 1) <$> seeds).
Proof.
  intros Hdown. revert w. induction seeds as [|seed rest IH]; intros w.
  - simpl. by rewrite app_nil_r.
  - cbn [after_seeds]. rewrite IH, calls_after_seed, seed_hits_down by done.
    simpl. by rewrite <-app_assoc.
Qed.

(** X13. When the provider rejects every request, the popular handler
    still answers 200, with an empty list; it has issued one request per
    seed, in seed order, and it stores the empty list under
    [popular:movies] with the full TTL. *)
Theorem popular_when_provider_down E w :
  provider_down E →
  lookup_live (cache w) (now w) popularKey = None →
  ∃ w1,
    popular E w = (w1, Ok (Response 200 (PopularList [])))
    ∧ calls w1 = calls w ++ ((λ seed, searchUrl E seed 1) <$> trendingSearches)
    ∧ data (cache w1) !! popularKey
      = Some (Entry (PopularList []) (now w1 + stdTTL * 1000)).
Proof.
  intros Hdown Hc. pose proof (popular_miss E w Hc) as Hrun.
  cbv zeta in Hrun. rewrite accumulate_down in Hrun by done.
  change (uniqueMovies []) with (@nil obj) in Hrun.
  eexists. split; [exact Hrun|]. split; [|apply stored_entry_now].
  unfold after_store. cbn [calls with_cache].
  rewrite calls_after_seeds_down by done.
  by destruct (after_lookup_frame popularKey w) as (_ & _ & -> & _).
Qed.

Lemma popular_when_provider_down_witness :
  ∃ w1,
    popular ex_down ex_world = (w1, Ok (Response 200 (PopularList [])))
    ∧ length (calls w1) = 8%nat
    ∧ data (cache w1) !! popularKey
      = Some (Entry (PopularList []) (now w1 + stdTTL * 1000)).
Proof.
  destruct (popular_when_provider_down ex_down ex_world)
    as (w1 & Hrun & Hcalls & Hstored).
  - intros log url. by exists "getaddrinfo ENOTFOUND".
  - reflexivity.
  - exists w1. split; [exact Hrun|]. split; [|exact Hstored].
    rewrite Hcalls. reflexivity.
Defined.

Lemma length_calls_after_seeds E seeds w :
  (length (calls w) + length seeds ≤ length (calls (after_seeds E seeds w))
   ≤ length (calls w) + 4 * length seeds)%nat.
Proof.
  revert w. induction seeds as [|seed rest IH]; intros w.
  - simpl. lia.
  - cbn [after_seeds]. specialize (IH (after_seed E seed w)).
    rewrite calls_after_seed in IH. rewrite length_app in IH.
    cbn [length] in IH. unfold detailUrls in IH. rewrite length_map in IH.
    pose proof (length_seed_hits E (calls w) seed). cbn [length]. lia.
Qed.

(** X14. Curating the popular list costs between 8 and 32 provider
    requests: one per seed, and at most three detail requests per seed. *)
Theorem popular_request_budget E w :
  lookup_live (cache w) (now w) popularKey = None →
  ∃ w1 r,
    popular E w = (w1, Ok r)
    ∧ (length (calls w) + 8 ≤ length (calls w1) ≤ length (calls w) + 32)%nat.
Proof.
  intros Hc. pose proof (popular_miss E w Hc) as Hrun. cbv zeta in Hrun.
  eexists _, _. split; [exact Hrun|].
  unfold after_store. cbn [calls with_cache].
  pose proof (length_calls_after_seeds E trendingSearches
                (after_lookup popularKey w)) as Hlen.
  destruct (after_lookup_frame popularKey w) as (_ & _ & Hcalls & _).
  rewrite Hcalls in Hlen. exact Hlen.
Qed.

Lemma popular_request_budget_witness :
  ∃ w1 r,
    popular ex_env ex_world = (w1, Ok r)
    ∧ (length (calls ex_world) + 8 ≤ length (calls w1)
       ≤ length (calls ex_world) + 32)%nat.
Proof.
  apply (popular_request_budget ex_env ex_world). reflexivity.
Defined.

Lemma length_accumulate E seeds w :
  (length (accumulate E seeds w) ≤ 3 * length seeds)%nat.
Proof.
  revert w. induction seeds as [|seed rest IH]; intros w; [simpl; lia|].
  cbn [accumulate]. rewrite length_app, length_entries.
  specialize (IH (after_seed E seed w)).
  pose proof (length_seed_hits E (calls w) seed). simpl. lia.
Qed.

(** X15. The cut to 25 entries never removes anything: the eight seeds
    accumulate at most 24 entries, so the popular list is the deduplicated
    accumulated list in full and has at most 24 movies. *)
Theorem popular_cut_is_idle E w :
  lookup_live (cache w) (now w) popularKey = None →
  ∃ w1 movies,
    popular E w = (w1, Ok (Response 200 (PopularList movies)))
    ∧ movies
      = dedup_by_id [] (accumulate E trendingSearches
                          (after_lookup popularKey w))
    ∧ (length movies ≤ 24)%nat.
Proof.
  intros Hc. pose proof (popular_miss E w Hc) as Hrun. cbv zeta in Hrun.
  eexists _, _. split; [exact Hrun|].
  assert (∀ seen l, length (dedup_by_id seen l) ≤ length l)%nat as Hle.
  { intros seen l. revert seen. induction l as [|m l IH]; intros seen;
      simpl; [lia|].
    destruct (bool_decide _); simpl; [specialize (IH seen)
                                     |specialize (IH (imdbID m :: seen))]; lia. }
  pose proof (length_accumulate E trendingSearches
                (after_lookup popularKey w)) as Hacc.
  change (length trendingSearches) with 8%nat in Hacc.
  specialize (Hle [] (accumulate E trendingSearches
                        (after_lookup popularKey w))).
  rewrite uniqueMovies_dedup. rewrite take_ge by lia. split; [done|lia].
Qed.

Lemma popular_cut_is_idle_witness :
  ∃ w1 movies,
    popular ex_seeds ex_world = (w1, Ok (Response 200 (PopularList movies)))
    ∧ length (accumulate ex_seeds trendingSearches
                (after_lookup popularKey ex_world)) = 6%nat
    ∧ imdbID <$> movies = VStr <$> ["m1"; "m2"; "m3"; "b2"; "b3"]
    ∧ (length movies ≤ 24)%nat.
Proof.
  destruct (popular_cut_is_idle ex_seeds ex_world)
    as (w1 & movies & Hrun & Hmovies & Hlen); [reflexivity|].
  exists w1, movies. split; [exact Hrun|]. split; [by vm_compute|].
  split; [rewrite Hmovies; by vm_compute|exact Hlen].
Defined.

(** X16. The popular handler cannot fail: on a miss it answers 200
    whatever the provider does, and every call made within the TTL after
    that gets the same list from the cache without a provider request. *)
Theorem popular_repeat_served E E' w :
  lookup_live (cache w) (now w) popularKey = None →
  ∃ w1 movies,
    popular E w = (w1, Ok (Response 200 (PopularList movies)))
    ∧ ∀ t, 0 ≤ t ≤ stdTTL * 1000 →
        ∃ w2,
          popular E' (elapse t w1)
          = (w2, Ok (Response 200 (PopularList movies)))
          ∧ calls w2 = calls w1
          ∧ data (cache w2) = data (cache w1).
Proof.
  intros Hc. pose proof (popular_miss E w Hc) as Hrun. cbv zeta in Hrun.
  eexists _, _. split; [exact Hrun|]. intros t Ht.
  set (w1 := after_store popularKey _ _).
  assert (lookup_live (cache (elapse t w1)) (now (elapse t w1)) popularKey
          = Some (PopularList (uniqueMovies
                                 (accumulate E trendingSearches
                                    (after_lookup popularKey w))))) as Hlive.
  { apply lookup_live_Some. eexists. split; [apply stored_entry|].
    split; [done|]. simpl. lia. }
  eexists. split; [by apply popular_hit|]. split.
  - by destruct (after_lookup_frame popularKey (elapse t w1))
      as (_ & _ & -> & _).
  - exact (data_after_lookup_live _ _ _ Hlive).
Qed.

Lemma popular_repeat_served_witness :
  ∃ w1 movies w2,
    popular ex_env ex_world = (w1, Ok (Response 200 (PopularList movies)))
    ∧ popular ex_down (elapse 3600000 w1)
      = (w2, Ok (Response 200 (PopularList movies)))
    ∧ calls w2 = calls w1.
Proof.
  destruct (popular_repeat_served ex_env ex_down ex_world)
    as (w1 & movies & Hrun & Hlater); [reflexivity|].
  destruct (Hlater 3600000) as (w2 & Hrun2 & Hcalls & _);
    [unfold stdTTL; lia|].
  exists w1, movies, w2. split; [exact Hrun|]. split; [exact Hrun2|exact Hcalls].
Defined.

(** ** More on [GET /api/movie/:id] *)

Lemma movie_by_id_hit E id w cached :
  lookup_live (cache w) (now w) (movieKey id) = Some cached →
  movie_by_id E id w
  = (after_lookup (movieKey id) w, Ok (Response 200 cached)).
Proof.
  intros Hc. unfold movie_by_id, movie_by_id_body. apply try_run.
  unfold mbind, M_bind, cache_get, after_lookup. by rewrite Hc.
Qed.

Lemma movie_by_id_unavailable E id w cause :
  lookup_live (cache w) (now w) (movieKey id) = None →
  provider E (calls w) (detailUrl E (VStr id)) = Fail cause →
  movie_by_id E id w
  = (log_to_console [OMDB_API_Error cause; Movie_detail_error FetchError]
       (after_request E (detailUrl E (VStr id)) (after_lookup (movieKey id) w)),
     Ok (Response 500 (Failure (VStr "Failed to fetch movie details")))).
Proof.
  intros Hc Hp. unfold movie_by_id, movie_by_id_body.
  erewrite try_caught.
  2:{ erewrite bind_run.
      2:{ unfold cache_get. rewrite Hc. reflexivity. }
      cbv beta iota. apply bind_throw. apply makeOMDBRequest_fail.
      exact Hp. }
  unfold mbind, M_bind, console_error, mret, M_ret.
  rewrite log_to_console_app. unfold after_lookup. by rewrite Hc.
Qed.

(** X17. Once the provider has answered a detail request, found or not,
    every call for the same id made within the TTL gets the same answer
    from the cache, without a provider request. *)
Theorem movie_repeat_served E E' id w d :
  lookup_live (cache w) (now w) (movieKey id) = None →
  provider E (calls w) (detailUrl E (VStr id)) = Reply d →
  ∃ w1 answer,
    movie_by_id E id w = (w1, Ok (Response 200 answer))
    ∧ ∀ t, 0 ≤ t ≤ stdTTL * 1000 →
        ∃ w2,
          movie_by_id E' id (elapse t w1) = (w2, Ok (Response 200 answer))
          ∧ calls w2 = calls w1
          ∧ data (cache w2) = data (cache w1).
Proof.
  intros Hc Hp. pose proof (movie_by_id_miss E id w d Hc Hp) as Hrun.
  cbv zeta in Hrun. eexists _, _. split; [exact Hrun|]. intros t Ht.
  set (w1 := after_store (movieKey id) _ _).
  eexists. split; [|split].
  - apply movie_by_id_hit. apply lookup_live_Some.
    eexists. split; [apply stored_entry|]. split; [done|]. simpl. lia.
  - by destruct (after_lookup_frame (movieKey id) (elapse t w1))
      as (_ & _ & -> & _).
  - apply (data_after_lookup_entry _ (elapse t w1) _ (stored_entry _ _ _)).
    simpl. lia.
Qed.

Lemma movie_repeat_served_witness :
  ∃ w1 w2,
    movie_by_id ex_env "tt0000000" ex_world
    = (w1, Ok (Response 200 (Failure (VStr "Movie not found!"))))
    ∧ movie_by_id ex_down "tt0000000" (elapse 3600000 w1)
      = (w2, Ok (Response 200 (Failure (VStr "Movie not found!"))))
    ∧ calls w2 = calls w1.
Proof.
  destruct (movie_repeat_served ex_env ex_down "tt0000000" ex_world
              ex_nothing) as (w1 & answer & Hrun & Hlater);
    [reflexivity|reflexivity|].
  destruct (Hlater 3600000) as (w2 & Hrun2 & Hcalls & _);
    [unfold stdTTL; lia|].
  assert (answer = Failure (VStr "Movie not found!")) as ->.
  { pose proof (movie_by_id_miss ex_env "tt0000000" ex_world ex_nothing
                  eq_refl eq_refl) as Hrun'.
    cbv zeta in Hrun'. rewrite Hrun' in Hrun. by injection Hrun as _ <-. }
  exists w1, w2. split; [exact Hrun|]. split; [exact Hrun2|exact Hcalls].
Defined.

(** X18. When the detail request fails, the handler answers 500 with
    "Failed to fetch movie details", logs the cause and stores nothing:
    the cache holds no entry under the key (it has lost at most the expired
    one the read found there), serves from then on what it would have
    served, and the key is still a miss for the next call. *)
Theorem movie_unavailable_not_cached E id w cause :
  lookup_live (cache w) (now w) (movieKey id) = None →
  provider E (calls w) (detailUrl E (VStr id)) = Fail cause →
  ∃ w1,
    movie_by_id E id w
    = (w1, Ok (Response 500 (Failure (VStr "Failed to fetch movie details"))))
    ∧ data (cache w1) = delete (movieKey id) (data (cache w))
    ∧ data (cache w1) !! movieKey id = None
    ∧ (∀ key t, now w ≤ t →
         lookup_live (cache w1) t key = lookup_live (cache w) t key)
    ∧ lookup_live (cache w1) (now w1) (movieKey id) = None
    ∧ console w1
      = console w ++ [OMDB_API_Error cause; Movie_detail_error FetchError].
Proof.
  intros Hc Hp. eexists. split; [by apply movie_by_id_unavailable|].
  assert (data (cache (log_to_console
                         [OMDB_API_Error cause; Movie_detail_error FetchError]
                         (after_request E (detailUrl E (VStr id))
                            (after_lookup (movieKey id) w))))
          = delete (movieKey id) (data (cache w))) as Hdata.
  { by apply data_after_primary. }
  destruct (miss_leaves_cache _ _ _ Hc Hdata) as (Hnone & _ & Hserved).
  split; [exact Hdata|]. split; [exact Hnone|]. split; [exact Hserved|].
  split; [unfold lookup_live; by rewrite Hnone|].
  unfold log_to_console. cbn [console]. by rewrite console_after_primary.
Qed.

Lemma movie_unavailable_not_cached_witness :
  data (cache ex_stale) !! movieKey "tt2"
  = Some (Entry (Failure (VStr "Old answer")) 500)
  ∧ ∃ w1,
      movie_by_id ex_down "tt2" ex_stale
      = (w1, Ok (Response 500 (Failure (VStr "Failed to fetch movie details"))))
      ∧ data (cache w1) !! movieKey "tt2" = None
      ∧ lookup_live (cache w1) 1500 popularKey = Some (PopularList [])
      ∧ console w1
        = [OMDB_API_Error "getaddrinfo ENOTFOUND";
           Movie_detail_error FetchError].
Proof.
  split; [reflexivity|].
  destruct (movie_unavailable_not_cached ex_down "tt2" ex_stale
              "getaddrinfo ENOTFOUND")
    as (w1 & Hrun & _ & Hnone & Hserved & _ & Hconsole);
    [reflexivity|reflexivity|].
  exists w1. split; [exact Hrun|]. split; [exact Hnone|].
  split; [rewrite Hserved; by vm_compute|exact Hconsole].
Defined.

Lemma movieKey_inj id1 id2 : movieKey id1 = movieKey id2 → id1 = id2.
Proof.
  unfold movieKey. intros Heq.
  repeat (progress rewrite ?append_nil_l, ?append_cons in Heq).
  by injection Heq.
Qed.

(** X19. A detail call stores at most one entry, under the key of its
    own id: the entries of every search, of the popular list and of every
    other id are the same before and after. *)
Theorem movie_leaves_other_entries E id w w1 r :
  movie_by_id E id w = (w1, Ok r) →
  (∀ query page,
     data (cache w1) !! searchKey query page
     = data (cache w) !! searchKey query page)
  ∧ data (cache w1) !! popularKey = data (cache w) !! popularKey
  ∧ ∀ id', id' ≠ id →
      data (cache w1) !! movieKey id' = data (cache w) !! movieKey id'.
Proof.
  intros Hrun.
  assert (∀ k, k ≠ movieKey id → data (cache w1) !! k = data (cache w) !! k)
    as Hframe.
  { intros k Hk.
    destruct (lookup_live (cache w) (now w) (movieKey id))
      as [cached|] eqn:Hc.
    { rewrite (movie_by_id_hit E id w cached Hc) in Hrun.
      injection Hrun as <- <-.
      by rewrite (data_after_lookup_live _ _ _ Hc). }
    destruct (provider E (calls w) (detailUrl E (VStr id)))
      as [d|cause] eqn:Hp.
    - pose proof (movie_by_id_miss E id w d Hc Hp) as Hrun'.
      cbv zeta in Hrun'. rewrite Hrun' in Hrun. injection Hrun as <- <-.
      rewrite data_after_store_ne by done.
      rewrite data_after_primary by done. by apply lookup_delete_ne.
    - rewrite (movie_by_id_unavailable E id w cause Hc Hp) in Hrun.
      injection Hrun as <- <-.
      change (data (cache (after_request E (detailUrl E (VStr id))
                             (after_lookup (movieKey id) w))) !! k
              = data (cache w) !! k).
      rewrite data_after_primary by done. by apply lookup_delete_ne. }
  split; [|split].
  - intros query page. apply Hframe. intros Hkey. symmetry in Hkey.
    by destruct (keys_apart query page id) as (Hne & _).
  - apply Hframe. intros Hkey. symmetry in Hkey.
    by destruct (keys_apart EmptyString 0 id) as (_ & _ & Hne).
  - intros id' Hne. apply Hframe. intros Hkey.
    by apply movieKey_inj in Hkey.
Qed.

Lemma movie_leaves_other_entries_witness :
  ∃ w1 r,
    movie_by_id ex_env "tt0000000" ex_world = (w1, Ok r)
    ∧ data (cache w1) !! popularKey = data (cache ex_world) !! popularKey.
Proof.
  destruct (movie_by_id_answers ex_env "tt0000000" ex_world)
    as (w1 & r & Hrun & _).
  exists w1, r. split; [exact Hrun|].
  apply (movie_leaves_other_entries ex_env "tt0000000" ex_world w1 r Hrun).
Defined.

(** ** [POST /api/movies] *)

Lemma after_attempt_frame E url w :
  cache (after_attempt E url w) = cache w
  ∧ history (after_attempt E url w) = history w.
Proof. unfold after_attempt. by destruct (provider E (calls w) url). Qed.

(** The loop when every request is answered. *)
Lemma fetch_each_answered E ids movies w :
  Forall is_reply (batch_outcomes E (calls w) ids) →
  ∃ w1,
    fetch_each E ids movies w
    = (w1, Ok (movies ++ found_movies (batch_outcomes E (calls w) ids)))
    ∧ calls w1 = calls w ++ batchUrls E ids
    ∧ console w1 = console w.
Proof.
  revert movies w. induction ids as [|id rest IH]; intros movies w Hall.
  - exists w. simpl. by rewrite !app_nil_r.
  - cbn [batch_outcomes] in Hall. apply Forall_cons in Hall as [[d Hp] Hall].
    cbn [fetch_each batch_outcomes].
    erewrite bind_run by by apply makeOMDBRequest_reply.
    assert (calls (elapse (Z.of_N (latency E (calls w) (batchUrl E id)))
                     (issue [batchUrl E id] w))
            = calls w ++ [batchUrl E id]) as Hcalls by done.
    destruct (IH (if strict_eq (get "Response" (fields d)) (VStr "True")
                  then movies ++ [d] else movies)
                 (elapse (Z.of_N (latency E (calls w) (batchUrl E id)))
                    (issue [batchUrl E id] w)))
      as (w1 & Hrun & Hcalls1 & Hconsole1); [by rewrite Hcalls|].
    exists w1. rewrite Hrun, Hcalls1, Hconsole1, Hcalls, Hp.
    split; [|split; [|done]].
    + do 2 f_equal. cbn [found_movies flat_map].
      destruct (strict_eq _ _); [by rewrite <-app_assoc|done].
    + unfold batchUrls. simpl. by rewrite <-app_assoc.
Qed.

Lemma length_found_movies outcomes :
  (length (found_movies outcomes) ≤ length outcomes)%nat.
Proof.
  induction outcomes as [|[d|cause] outcomes IH]; simpl; [lia| |lia].
  destruct (strict_eq _ _); simpl; lia.
Qed.

Lemma length_batch_outcomes E log ids :
  length (batch_outcomes E log ids) = length ids.
Proof.
  revert log. induction ids as [|id rest IH]; intros log; simpl; auto.
Qed.

(** X21. When every request of a batch is answered, the handler returns
    200 with the payloads of the ids the provider knows, in the order of
    the ids, the unknown ids skipped; it has issued one request per id, in
    order. *)
Theorem batch_returns_found E ids w :
  Forall is_reply (batch_outcomes E (calls w) ids) →
  ∃ w1 movies,
    movies_batch E (Some ids) w = (w1, Ok (200, BatchMovies movies))
    ∧ movies = found_movies (batch_outcomes E (calls w) ids)
    ∧ (length movies ≤ length ids)%nat
    ∧ calls w1 = calls w ++ batchUrls E ids.
Proof.
  intros Hall.
  destruct (fetch_each_answered E ids [] w Hall) as (w1 & Hrun & Hcalls & _).
  exists w1, (found_movies (batch_outcomes E (calls w) ids)).
  split; [|split; [done|split; [|done]]].
  - unfold movies_batch. apply try_run. by erewrite bind_run by exact Hrun.
  - rewrite <-(length_batch_outcomes E (calls w) ids).
    apply length_found_movies.
Qed.

Lemma batch_returns_found_witness :
  ∃ w1,
    movies_batch ex_env (Some [VStr "tt1"; VStr "tt0000000"; VStr "tt3"])
                 ex_world
    = (w1, Ok (200, BatchMovies [ex_detail; ex_detail]))
    ∧ length (calls w1) = 3%nat.
Proof.
  destruct (batch_returns_found ex_env
              [VStr "tt1"; VStr "tt0000000"; VStr "tt3"] ex_world)
    as (w1 & movies & Hrun & -> & _ & Hcalls).
  - repeat constructor; by eexists.
  - exists w1. split; [exact Hrun|]. rewrite Hcalls. reflexivity.
Defined.

(** The loop up to the first request that fails. *)
Lemma fetch_each_fails E ids movies w i cause :
  batch_outcomes E (calls w) ids !! i = Some (Fail cause) →
  Forall is_reply (take i (batch_outcomes E (calls w) ids)) →
  ∃ w1,
    fetch_each E ids movies w = (w1, Throw FetchError)
    ∧ calls w1 = calls w ++ batchUrls E (take (S i) ids)
    ∧ console w1 = console w ++ [OMDB_API_Error cause]
    ∧ cache w1 = cache w.
Proof.
  revert movies w i. induction ids as [|id rest IH]; intros movies w i Hi Hall;
    [done|].
  cbn [batch_outcomes] in Hi, Hall. cbn [fetch_each].
  destruct i as [|i].
  - injection Hi as Hp. eexists.
    split; [apply bind_throw; by apply makeOMDBRequest_fail|]. done.
  - cbn [take] in Hall. apply Forall_cons in Hall as [[d Hp] Hall].
    simpl in Hi.
    erewrite bind_run by by apply makeOMDBRequest_reply.
    assert (calls (elapse (Z.of_N (latency E (calls w) (batchUrl E id)))
                     (issue [batchUrl E id] w))
            = calls w ++ [batchUrl E id]) as Hcalls by done.
    destruct (IH (if strict_eq (get "Response" (fields d)) (VStr "True")
                  then movies ++ [d] else movies)
                 (elapse (Z.of_N (latency E (calls w) (batchUrl E id)))
                    (issue [batchUrl E id] w)) i)
      as (w1 & Hrun & Hcalls1 & Hconsole1 & Hcache1);
      [by rewrite Hcalls..|].
    exists w1. rewrite Hrun, Hcalls1, Hconsole1, Hcache1, Hcalls.
    split; [done|]. split; [|done].
    unfold batchUrls. simpl. by rewrite <-app_assoc.
Qed.

(** X22. The first request of a batch that fails ends the batch: the
    handler answers 500 with "Failed to fetch movies.", the movies found
    so far are dropped, and no request is issued for the ids after the
    failing one. *)
Theorem batch_aborts_on_failure E ids w i cause :
  batch_outcomes E (calls w) ids !! i = Some (Fail cause) →
  Forall is_reply (take i (batch_outcomes E (calls w) ids)) →
  ∃ w1,
    movies_batch E (Some ids) w
    = (w1, Ok (500, BatchFailure "Failed to fetch movies."))
    ∧ calls w1 = calls w ++ batchUrls E (take (S i) ids)
    ∧ console w1 = console w ++ [OMDB_API_Error cause].
Proof.
  intros Hi Hall.
  destruct (fetch_each_fails E ids [] w i cause Hi Hall)
    as (w1 & Hrun & Hcalls & Hconsole & _).
  exists w1. split; [|done].
  unfold movies_batch. erewrite try_caught; [done|].
  by apply bind_throw.
Qed.

Lemma batch_aborts_on_failure_witness :
  ∃ w1,
    movies_batch ex_env (Some [VStr "tt1"; VStr "tt2"; VStr "tt3"]) ex_world
    = (w1, Ok (500, BatchFailure "Failed to fetch movies."))
    ∧ calls w1
      = ["https://www.omdbapi.com/?apikey=k&i=tt1";
         "https://www.omdbapi.com/?apikey=k&i=tt2"].
Proof.
  destruct (batch_aborts_on_failure ex_env
              [VStr "tt1"; VStr "tt2"; VStr "tt3"] ex_world 1
              "timeout of 10000ms exceeded")
    as (w1 & Hrun & Hcalls & _).
  - reflexivity.
  - repeat constructor. by eexists.
  - exists w1. split; [exact Hrun|]. rewrite Hcalls. reflexivity.
Defined.

Lemma fetch_each_frame E ids movies w :
  ∃ w1 res,
    fetch_each E ids movies w = (w1, res)
    ∧ cache w1 = cache w ∧ history w1 = history w.
Proof.
  revert movies w. induction ids as [|id rest IH]; intros movies w.
  - by exists w, (Ok movies).
  - cbn [fetch_each]. unfold mbind, M_bind. rewrite makeOMDBRequest_run.
    destruct (after_attempt_frame E (batchUrl E id) w) as [Hcache Hhistory].
    destruct (provider E (calls w) (batchUrl E id)) as [d|cause].
    + destruct (IH (if strict_eq (get "Response" (fields d)) (VStr "True")
                    then movies ++ [d] else movies)
                   (after_attempt E (batchUrl E id) w))
        as (w1 & res & Hrun & Hc & Hh).
      exists w1, res. by rewrite Hrun, Hc, Hh.
    + by eexists _, _.
Qed.

(** X23. The batch handler always answers, with 200, 400 or 500, and
    never uses the cache or the history: it neither reads nor stores an
    entry, whatever the input and whatever the provider does. *)
Theorem batch_never_caches E imdbIDs w :
  ∃ w1 code answer,
    movies_batch E imdbIDs w = (w1, Ok (code, answer))
    ∧ (code = 200 ∨ code = 400 ∨ code = 500)
    ∧ cache w1 = cache w
    ∧ history w1 = history w.
Proof.
  destruct imdbIDs as [ids|].
  - destruct (fetch_each_frame E ids [] w) as (w1 & res & Hrun & Hc & Hh).
    unfold movies_batch, try_catch, mbind, M_bind. rewrite Hrun.
    destruct res as [movies|e].
    + eexists _, _, _. split; [done|]. split; [by left|done].
    + eexists _, _, _. split; [done|]. split; [by right; right|done].
  - eexists _, _, _. split; [done|]. split; [by right; left|done].
Qed.

(** ** [GET /api/search-history] *)

Lemma newer_transitive : Transitive newer.
Proof. intros a b c. unfold newer. lia. Qed.

Lemma newer_total : Total newer.
Proof. intros a b. unfold newer. lia. Qed.

(** X24. With the database connected and answering, the history
    endpoint returns the query, time and result count of the 50 most
    recent searches, newest first: the stored documents split into the
    ones returned, at most 50 and sorted by decreasing time, and the rest,
    none of which is newer than a returned one. *)
Theorem history_lists_latest w :
  isMongoConnected w = true →
  ∃ kept older,
    search_history_handler true w
    = (200, HistoryBody true (select_item <$> kept) None, None)
    ∧ kept ++ older ≡ₚ history w
    ∧ length kept = (50 `min` length (history w))%nat
    ∧ StronglySorted newer kept
    ∧ ∀ a b, a ∈ kept → b ∈ older → h_timestamp b ≤ h_timestamp a.
Proof.
  intros Hm.
  exists (take 50 (merge_sort newer (history w))),
         (drop 50 (merge_sort newer (history w))).
  pose proof (@StronglySorted_merge_sort _ newer _ newer_transitive
                newer_total (history w)) as Hsorted.
  rewrite <-(take_drop 50 (merge_sort newer (history w))) in Hsorted.
  split; [|split; [|split; [|split]]].
  - unfold search_history_handler. by rewrite Hm.
  - rewrite take_drop. apply merge_sort_Permutation.
  - rewrite length_take. by rewrite (merge_sort_Permutation newer (history w)).
  - by apply StronglySorted_app_1_l in Hsorted.
  - intros a b Ha Hb.
    apply (StronglySorted_app_1_elem_of newer _ _ a b Hsorted Ha Hb).
Qed.

Lemma history_lists_latest_witness :
  search_history_handler true (World (Cache ∅ 0 0) 1000 [] [] ex_docs true)
  = (200,
     HistoryBody true
       [HistoryItem "marvel" 30 (Num 12); HistoryItem "fast" 20 (Num 40);
        HistoryItem "batman" 10 (Num 95)] None,
     None).
Proof.
  destruct (history_lists_latest (World (Cache ∅ 0 0) 1000 [] [] ex_docs true))
    as (kept & older & Hrun & _); [reflexivity|].
  reflexivity.
Defined.

(** ** Accounts *)

Lemma split_on_until sep s rest :
  (∀ c, c ∈ list_ascii_of_string s → c ≠ sep) →
  split_on sep (s +:+ String sep rest) = s :: split_on sep rest.
Proof.
  induction s as [|c s IH]; intros Hs.
  - rewrite append_nil_l. simpl. by rewrite Ascii.eqb_refl.
  - rewrite append_cons. cbn [split_on].
    rewrite (proj2 (Ascii.eqb_neq c sep)).
    + rewrite IH; [done|]. intros c' Hc'. apply Hs. simpl. by right.
    + apply Hs. simpl. by left.
Qed.

Lemma split_on_none sep s :
  (∀ c, c ∈ list_ascii_of_string s → c ≠ sep) →
  split_on sep s = [s].
Proof.
  induction s as [|c s IH]; intros Hs; [done|].
  cbn [split_on]. rewrite (proj2 (Ascii.eqb_neq c sep)).
  - rewrite IH; [done|]. intros c' Hc'. apply Hs. simpl. by right.
  - apply Hs. simpl. by left.
Qed.

Lemma has_space_false s :
  has_space s = false → ∀ c, c ∈ list_ascii_of_string s → c ≠ " "%char.
Proof.
  induction s as [|c0 s IH]; simpl; intros Hs c Hc.
  - by apply elem_of_nil in Hc.
  - apply orb_false_iff in Hs as [Hc0 Hs].
    apply elem_of_cons in Hc as [->|Hc]; [by apply Ascii.eqb_neq|by apply IH].
Qed.

(** X25. The middleware verifies exactly the text between the first and
    the second space of the header: a header [Bearer <token>], with or
    without more text after a further space, is accepted or refused as
    [jwt.verify] decides for [<token>]. *)
Theorem authenticate_reads_second_word A token junk :
  has_space token = false →
  let verdict :=
    match jwt_verify A token with
    | Some userId => inr userId
    | None => inl (401, FavoritesFailure "Invalid token.")
    end in
  authenticateJWT A (Some ("Bearer " +:+ token)) = verdict
  ∧ authenticateJWT A (Some ("Bearer " +:+ token +:+ " " +:+ junk)) = verdict.
Proof.
  intros Hspace verdict. pose proof (has_space_false _ Hspace) as Htoken.
  assert (∀ rest, split_on " " ("Bearer " +:+ rest)
                  = "Bearer" :: split_on " " rest) as Hsplit.
  { intros rest. apply (split_on_until " " "Bearer" rest).
    intros c Hc. simpl in Hc.
    repeat (apply elem_of_cons in Hc as [->|Hc]; [done|]).
    by apply elem_of_nil in Hc. }
  assert (∀ rest, String.eqb ("Bearer " +:+ rest) EmptyString
                  || negb (String.prefix "Bearer " ("Bearer " +:+ rest))
                  = false) as Hscheme.
  { intros rest. repeat (progress rewrite ?append_nil_l, ?append_cons).
    by destruct rest. }
  unfold authenticateJWT. split.
  - rewrite Hscheme, Hsplit, (split_on_none _ _ Htoken). done.
  - rewrite Hscheme, Hsplit.
    change (token +:+ " " +:+ junk) with (token +:+ String " " junk).
    rewrite (split_on_until _ _ _ Htoken). done.
Qed.

Lemma authenticate_reads_second_word_witness :
  authenticateJWT ex_accounts (Some "Bearer good") = inr "u1"
  ∧ authenticateJWT ex_accounts (Some "Bearer good and more") = inr "u1".
Proof.
  apply (authenticate_reads_second_word ex_accounts "good" "and more").
  reflexivity.
Defined.

Lemma authenticate_refusal A authHeader answer :
  authenticateJWT A authHeader = inl answer → answer.1 = 401.
Proof.
  unfold authenticateJWT. destruct authHeader as [header|]; [|by intros [= <-]].
  destruct (_ || _); [by intros [= <-]|].
  destruct (_ !! _) as [token|]; [|by intros [= <-]].
  destruct (jwt_verify A token); [done|by intros [= <-]].
Qed.

(** X26. The favorites handlers act only for a header that starts with
    [Bearer ] and whose second word [jwt.verify] accepts; any other
    request is answered 401 by each of them, and no document of the
    collection is changed. *)
Theorem favorites_need_a_token A authHeader imdbID users :
  (∀ userId,
     authenticateJWT A authHeader = inr userId →
     ∃ header token,
       authHeader = Some header
       ∧ String.prefix "Bearer " header = true
       ∧ split_on " " header !! 1%nat = Some token
       ∧ jwt_verify A token = Some userId)
  ∧ (∀ answer,
       authenticateJWT A authHeader = inl answer →
       answer.1 = 401
       ∧ add_favorite A authHeader imdbID users = (users, answer)
       ∧ remove_favorite A authHeader imdbID users = (users, answer)
       ∧ get_favorites A authHeader users = answer).
Proof.
  split.
  - intros userId. unfold authenticateJWT.
    destruct authHeader as [header|]; [|done].
    destruct (String.eqb header EmptyString); [done|].
    destruct (String.prefix "Bearer " header) eqn:Hprefix; [|done].
    destruct (split_on " " header !! 1%nat) as [token|] eqn:Htoken; [|done].
    destruct (jwt_verify A token) as [uid|] eqn:Hverify; [|done].
    intros [= <-]. by exists header, token.
  - intros answer Hauth. split; [by eapply authenticate_refusal|].
    unfold add_favorite, remove_favorite, get_favorites. by rewrite Hauth.
Qed.

Lemma favorites_need_a_token_witness :
  add_favorite ex_accounts (Some "Bearer bad") (Some "tt5") ex_users
  = (ex_users, (401, FavoritesFailure "Invalid token."))
  ∧ remove_favorite ex_accounts None (Some "tt1") ex_users
    = (ex_users, (401, FavoritesFailure "No token provided.")).
Proof.
  split.
  - apply (favorites_need_a_token ex_accounts (Some "Bearer bad") (Some "tt5")
             ex_users). reflexivity.
  - apply (favorites_need_a_token ex_accounts None (Some "tt1") ex_users).
    reflexivity.
Defined.

Lemma set_favorites_same u : set_favorites (u_favorites u) u = u.
Proof. by destruct u. Qed.

(** X27. Adding a favorite for an authenticated user answers 200 with a
    list that contains the id: the old list as it was when it already had
    the id, else the old list with the id appended.  The list is what is
    stored, it has no duplicates if the old one had none, and adding the
    same id again changes nothing. *)
Theorem add_favorite_once A authHeader userId id users u :
  authenticateJWT A authHeader = inr userId →
  id ≠ EmptyString →
  find_ok A = true → save_ok A = true →
  users !! userId = Some u →
  ∃ users' favorites,
    add_favorite A authHeader (Some id) users
    = (users', (200, Favorites favorites))
    ∧ users' !! userId = Some (set_favorites favorites u)
    ∧ favorites = (if bool_decide (id ∈ u_favorites u) then u_favorites u
                   else u_favorites u ++ [id])
    ∧ id ∈ favorites
    ∧ (NoDup (u_favorites u) → NoDup favorites)
    ∧ add_favorite A authHeader (Some id) users'
      = (users', (200, Favorites favorites)).
Proof.
  intros Hauth Hid Hfind Hsave Hu. unfold add_favorite.
  rewrite Hauth, (proj2 (String.eqb_neq id EmptyString)) by done.
  rewrite Hfind, Hsave, Hu. simpl.
  destruct (decide (id ∈ u_favorites u)) as [Hin|Hnin].
  - rewrite bool_decide_eq_true_2 by done.
    exists users, (u_favorites u).
    rewrite set_favorites_same, Hu, bool_decide_eq_true_2 by done. done.
  - rewrite bool_decide_eq_false_2 by done.
    eexists _, _. split; [done|].
    rewrite lookup_insert_eq. simpl.
    rewrite bool_decide_eq_true_2 by (apply elem_of_app; right; by left).
    repeat split; try done.
    + apply elem_of_app. right. by left.
    + intros Hnd. apply NoDup_app. split; [done|].
      split; [|apply NoDup_singleton].
      intros x Hx Hx'. apply list_elem_of_singleton in Hx'. by subst.
Qed.

Lemma add_favorite_once_witness :
  ∃ users',
    add_favorite ex_accounts (Some "Bearer good") (Some "tt5") ex_users
    = (users', (200, Favorites ["tt1"; "tt2"; "tt5"]))
    ∧ add_favorite ex_accounts (Some "Bearer good") (Some "tt5") users'
      = (users', (200, Favorites ["tt1"; "tt2"; "tt5"])).
Proof.
  destruct (add_favorite_once ex_accounts (Some "Bearer good") "u1" "tt5"
              ex_users (User "a@example.org" "ann" "hash" ["tt1"; "tt2"]))
    as (users' & favorites & Hrun & _ & -> & _ & _ & Hagain);
    [reflexivity|discriminate|reflexivity|reflexivity|reflexivity|].
  exists users'. split; [exact Hrun|exact Hagain].
Defined.

Lemma without_spec id favorites x :
  x ∈ without id favorites ↔ x ∈ favorites ∧ x ≠ id.
Proof. unfold without. rewrite list_elem_of_filter. tauto. Qed.

Lemma without_absent id favorites :
  id ∉ favorites → without id favorites = favorites.
Proof.
  intros Hid. unfold without. induction favorites as [|x l IH]; [done|].
  rewrite filter_cons. rewrite decide_True.
  - f_equal. apply IH. intros Hin. apply Hid. by right.
  - intros ->. apply Hid. by left.
Qed.

(** X28. Removing a favorite for an authenticated user answers 200 with
    the old list minus every occurrence of the id, the other ids in their
    old order; that list is what is stored, and removing the same id again
    gives the same answer. *)
Theorem remove_favorite_all A authHeader userId id users u :
  authenticateJWT A authHeader = inr userId →
  id ≠ EmptyString →
  find_ok A = true → save_ok A = true →
  users !! userId = Some u →
  ∃ users' favorites,
    remove_favorite A authHeader (Some id) users
    = (users', (200, Favorites favorites))
    ∧ favorites = without id (u_favorites u)
    ∧ users' !! userId = Some (set_favorites favorites u)
    ∧ (id ∉ favorites)
    ∧ (∀ x, x ∈ favorites ↔ x ∈ u_favorites u ∧ x ≠ id)
    ∧ (favorites `sublist_of` (u_favorites u))
    ∧ (remove_favorite A authHeader (Some id) users').2
      = (200, Favorites favorites).
Proof.
  intros Hauth Hid Hfind Hsave Hu. unfold remove_favorite.
  rewrite Hauth, (proj2 (String.eqb_neq id EmptyString)) by done.
  rewrite Hfind, Hsave, Hu. simpl.
  eexists _, _. split; [done|]. rewrite lookup_insert_eq. simpl.
  assert (id ∉ without id (u_favorites u)) as Hgone.
  { rewrite without_spec. tauto. }
  split; [done|]. split; [done|]. split; [done|].
  split; [apply without_spec|]. split; [apply sublist_filter|].
  by rewrite (without_absent _ _ Hgone).
Qed.

Lemma remove_favorite_all_witness :
  ∃ users',
    remove_favorite ex_accounts (Some "Bearer good") (Some "tt1") ex_users
    = (users', (200, Favorites ["tt2"]))
    ∧ (remove_favorite ex_accounts (Some "Bearer good") (Some "tt1") users').2
      = (200, Favorites ["tt2"]).
Proof.
  destruct (remove_favorite_all ex_accounts (Some "Bearer good") "u1" "tt1"
              ex_users (User "a@example.org" "ann" "hash" ["tt1"; "tt2"]))
    as (users' & favorites & Hrun & -> & _ & _ & _ & _ & Hagain);
    [reflexivity|discriminate|reflexivity|reflexivity|reflexivity|].
  exists users'. split; [exact Hrun|exact Hagain].
Defined.

Lemma without_appended id favorites :
  id ∉ favorites → without id (favorites ++ [id]) = favorites.
Proof.
  intros Hid. unfold without. rewrite filter_app.
  fold (without id favorites). rewrite (without_absent _ _ Hid).
  rewrite filter_cons, decide_False by (by intros ?).
  by rewrite filter_nil, app_nil_r.
Qed.

(** X29. Adding an id that is not yet a favorite and then removing it
    brings the user's document back to what it was. *)
Theorem add_then_remove_restores A authHeader userId id users u :
  authenticateJWT A authHeader = inr userId →
  id ≠ EmptyString →
  find_ok A = true → save_ok A = true →
  users !! userId = Some u →
  id ∉ u_favorites u →
  ∃ users1 users2,
    add_favorite A authHeader (Some id) users
    = (users1, (200, Favorites (u_favorites u ++ [id])))
    ∧ remove_favorite A authHeader (Some id) users1
      = (users2, (200, Favorites (u_favorites u)))
    ∧ users2 = users.
Proof.
  intros Hauth Hid Hfind Hsave Hu Hnew.
  unfold add_favorite, remove_favorite.
  rewrite Hauth, (proj2 (String.eqb_neq id EmptyString)) by done.
  rewrite Hfind, Hsave, Hu. simpl.
  rewrite bool_decide_eq_false_2 by done.
  eexists _, _. split; [done|].
  rewrite lookup_insert_eq. simpl. rewrite (without_appended _ _ Hnew).
  split; [done|].
  rewrite insert_insert_eq. unfold set_favorites. simpl.
  apply insert_id. rewrite Hu. by destruct u.
Qed.

Lemma add_then_remove_restores_witness :
  ∃ users1,
    add_favorite ex_accounts (Some "Bearer good") (Some "tt5") ex_users
    = (users1, (200, Favorites ["tt1"; "tt2"; "tt5"]))
    ∧ remove_favorite ex_accounts (Some "Bearer good") (Some "tt5") users1
      = (ex_users, (200, Favorites ["tt1"; "tt2"])).
Proof.
  destruct (add_then_remove_restores ex_accounts (Some "Bearer good") "u1"
              "tt5" ex_users
              (User "a@example.org" "ann" "hash" ["tt1"; "tt2"]))
    as (users1 & users2 & Hadd & Hremove & ->);
    [reflexivity|discriminate|reflexivity|reflexivity|reflexivity| |].
  - apply (bool_decide_unpack _). by vm_compute.
  - exists users1. split; [exact Hadd|exact Hremove].
Defined.

(** X30. The favorites handlers change nothing but the favorites of the
    user the token names: every other user's document, and that user's
    email, name and password, are the same after an add or a remove,
    whatever its outcome. *)
Theorem favorites_touch_one_user A authHeader imdbID users :
  ∀ users' answer,
    (add_favorite A authHeader imdbID users = (users', answer)
     ∨ remove_favorite A authHeader imdbID users = (users', answer)) →
    users' = users
    ∨ ∃ userId u favorites,
        authenticateJWT A authHeader = inr userId
        ∧ users !! userId = Some u
        ∧ users' = <[userId := set_favorites favorites u]> users
        ∧ (∀ other, other ≠ userId → users' !! other = users !! other)
        ∧ (∀ u', users' !! userId = Some u' →
                 u_email u' = u_email u ∧ u_username u' = u_username u
                 ∧ u_password u' = u_password u).
Proof.
  intros users' answer Hrun.
  assert (users' = users
          ∨ ∃ userId u favorites,
              authenticateJWT A authHeader = inr userId
              ∧ users !! userId = Some u
              ∧ users' = <[userId := set_favorites favorites u]> users)
    as [->|(userId & u & favorites & Hauth & Hu & ->)]; [|by left|].
  { unfold add_favorite, remove_favorite in Hrun.
    destruct (authenticateJWT A authHeader) as [refusal|userId] eqn:Hauth.
    { left. by destruct Hrun as [[= <- _]|[= <- _]]. }
    destruct imdbID as [id|];
      [|left; by destruct Hrun as [[= <- _]|[= <- _]]].
    destruct (String.eqb id EmptyString);
      [left; by destruct Hrun as [[= <- _]|[= <- _]]|].
    destruct (negb (find_ok A));
      [left; by destruct Hrun as [[= <- _]|[= <- _]]|].
    destruct (users !! userId) as [u|] eqn:Hu;
      [|left; by destruct Hrun as [[= <- _]|[= <- _]]].
    destruct (save_ok A).
    - destruct Hrun as [Hrun|Hrun].
      + destruct (bool_decide (id ∈ u_favorites u));
          injection Hrun as <- _; [by left|].
        right. by eexists userId, u, _.
      + injection Hrun as <- _. right. by eexists userId, u, _.
    - left. destruct Hrun as [Hrun|Hrun].
      + by destruct (bool_decide (id ∈ u_favorites u)); injection Hrun as <- _.
      + by injection Hrun as <- _. }
  right. exists userId, u, favorites. split; [done|]. split; [done|].
  split; [done|]. split.
  - intros other Hne. by rewrite lookup_insert_ne.
  - intros u'. rewrite lookup_insert_eq. by intros [= <-].
Qed.

Lemma favorites_touch_one_user_witness :
  ∃ users',
    add_favorite ex_accounts (Some "Bearer good") (Some "tt5") ex_users
    = (users', (200, Favorites ["tt1"; "tt2"; "tt5"]))
    ∧ users' !! "u2" = ex_users !! "u2".
Proof.
  eexists. split; [reflexivity|].
  destruct (favorites_touch_one_user ex_accounts (Some "Bearer good")
              (Some "tt5") ex_users _ _ (or_introl eq_refl))
    as [Hsame|(userId & u & favorites & Hauth & _ & _ & Hothers & _)].
  - by rewrite Hsame.
  - apply Hothers. injection Hauth as <-. discriminate.
Defined.
